(** * Sudoku core: groups and the solver

    A shallow embedding of [sdk_group.py] and [sdk_solver.py], with the
    tile and board layers they call into.  A board is a row-major store
    of 81 tiles; a group refers to its nine tiles by position in that
    store, so a tile shared by a row, a column and a block is one cell
    of the store, as it is one object in the program. *)

From stdpp Require Import gmap strings list.

Open Scope string_scope.

(** ** Python sets of strings *)

Abbreviation pyset := (gset string).

(** [set(s)] for a string [s]: the set of its one-character substrings. *)
Fixpoint set_of_str (s : string) : pyset :=
  match s with
  | EmptyString => ∅
  | String c s' => {[ String c EmptyString ]} ∪ set_of_str s'
  end.

(** ** Tiles *)

Module sdk_tile.

(** Modelled from the spec: the module constants [sdk_tile.CHOICES] and
    [sdk_tile.UNKNOWN] are not among the sources; the digits are those of
    the literal in [hidden_single_constrain], the placeholder is a symbol
    that is not a digit. *)
Definition CHOICES : list string :=
  ["1"; "2"; "3"; "4"; "5"; "6"; "7"; "8"; "9"].

Definition UNKNOWN : string := ".".

(** Modelled from the spec: the [Tile] class is not among the sources.
    A tile has a value and the set of digits still possible for it; its
    position is its index in the board's store. *)
Record Tile := mkTile { value : string; candidates : pyset }.

(** Modelled from the spec: [Tile.set_value(v)] assigns [value = v] and
    collapses [candidates] to [{v}]. *)
Definition set_value (t : Tile) (v : string) : Tile :=
  {| value := v; candidates := {[ v ]} |}.

(** Modelled from the spec: [Tile.eliminate(used)] removes every member of
    [used] from the candidates of an UNKNOWN tile and tells whether the set
    shrank; on an assigned tile it does nothing and returns false. *)
Definition eliminate (t : Tile) (used : pyset) : Tile * bool :=
  if bool_decide (value t = UNKNOWN) then
    let new := candidates t ∖ used in
    ({| value := value t; candidates := new |},
     bool_decide (new ≠ candidates t))
  else (t, false).

(** Modelled from the spec: [Tile.could_be(v)] is membership in the
    candidates. *)
Definition could_be (t : Tile) (v : string) : bool :=
  bool_decide (v ∈ candidates t).

End sdk_tile.

Import sdk_tile.

#[global] Instance Tile_inhabited : Inhabited Tile :=
  populate (mkTile UNKNOWN ∅).

#[global] Instance Tile_eq_dec : EqDecision Tile.
Proof. solve_decision. Defined.

(** ** Groups *)

Module sdk_group.

(** A group is a title and (at most) nine tiles.  The tiles are shared
    with the board and with two other groups, so the group holds their
    positions in the board's store and every method reads and writes
    the store. *)
Record Group := mkGroup { title : string; tiles : list nat }.

Definition tile_of (st : list Tile) (i : nat) : Tile := st !!! i.

Definition members (g : Group) (st : list Tile) : list Tile :=
  tile_of st <$> tiles g.

(** [Group.__str__]: the title, a space, the values joined. *)
Definition to_str (g : Group) (st : list Tile) : string :=
  title g +:+ " " +:+ foldr String.append "" (value <$> members g st).

(** [Group.is_complete]: no tile holds UNKNOWN. *)
Definition is_complete (g : Group) (st : list Tile) : bool :=
  forallb (λ tile, negb (bool_decide (value tile = UNKNOWN))) (members g st).

(** The loop of [Group.is_consistent], with its two accumulators; the
    test after the loop is the [[]] case. *)
Fixpoint is_consistent_loop (ts : list Tile) (can_place used : pyset) : bool :=
  match ts with
  | [] => negb (bool_decide (can_place ≠ list_to_set CHOICES))
  | tile :: ts' =>
      if bool_decide (size (candidates tile) = 0) then false
      else if bool_decide (value tile ∈ used) then false
      else
        let used' :=
          if bool_decide (value tile ≠ UNKNOWN) then used ∪ {[ value tile ]}
          else used in
        is_consistent_loop ts' (can_place ∪ candidates tile) used'
  end.

Definition is_consistent (g : Group) (st : list Tile) : bool :=
  is_consistent_loop (members g st) ∅ ∅.

(** The loop of [Group.duplicates]: [used] is tested and passed on as it
    is, the source never adds to it. *)
Fixpoint duplicates_loop (g : Group) (st : list Tile) (ts : list Tile)
    (reports : list string) (used : pyset) : list string :=
  match ts with
  | [] => reports
  | tile :: ts' =>
      if bool_decide (value tile = UNKNOWN) then
        duplicates_loop g st ts' reports used
      else if bool_decide (value tile ∈ used) then
        duplicates_loop g st ts'
          (reports ++ ["Duplicate in " +:+ title g +:+ ": " +:+ to_str g st
                       +:+ ", value " +:+ value tile])
          used
      else duplicates_loop g st ts' reports used
  end.

Definition duplicates (g : Group) (st : list Tile) : list string :=
  duplicates_loop g st (members g st) [] ∅.

(** [Group.naked_single_constrain]; [attend] and [unattend] only notify
    a display and are left out. *)
Definition naked_single_step (set_remaining : pyset)
    (acc : list Tile * bool) (i : nat) : list Tile * bool :=
  let '(st, changed) := acc in
  let tile := tile_of st i in
  if bool_decide (value tile = UNKNOWN) then
    let '(tile', ch) := eliminate tile set_remaining in
    (<[i := tile']> st, ch || changed)
  else (st, changed).

Definition naked_single_constrain (g : Group) (st : list Tile)
    : list Tile * bool :=
  let remaining :=
    filter (λ v, v ≠ UNKNOWN) (value <$> members g st) in
  let set_remaining : pyset := list_to_set remaining in
  foldl (naked_single_step set_remaining) (st, false) (tiles g).

Section hidden_single.

(** The order in which a [for] loop runs through a set.  Python leaves it
    unspecified, so it is kept abstract. *)
Variable enum : pyset → list string.

Definition leftovers_of (g : Group) (st : list Tile) : pyset :=
  foldl (λ leftovers tile, leftovers ∖ set_of_str (value tile))
        (list_to_set ["1"; "2"; "3"; "4"; "5"; "6"; "7"; "8"; "9"])
        (members g st).

(** One round of the loop over the leftovers: fill the bucket, and assign
    when it holds exactly one tile. *)
Definition hidden_single_step (g : Group)
    (acc : list Tile * bool) (v : string) : list Tile * bool :=
  let '(st, changed) := acc in
  let bucket := filter (λ i, could_be (tile_of st i) v = true) (tiles g) in
  match bucket with
  | [i] => (<[i := set_value (tile_of st i) v]> st, true)
  | _ => (st, changed)
  end.

Definition hidden_single_constrain (g : Group) (st : list Tile)
    : list Tile * bool :=
  foldl (hidden_single_step g) (st, false) (enum (leftovers_of g st)).

End hidden_single.

(** [Group.__init__]: a title and no tile yet. *)
Definition new_group (title : string) : Group := mkGroup title [].

(** [Group.add]: append a tile; [None] stands for the [AssertionError]
    of [assert len(self.tiles) < 9]. *)
Definition add (g : Group) (tile : nat) : option Group :=
  if bool_decide (length (tiles g) < 9)%nat
  then Some (mkGroup (title g) (tiles g ++ [tile])%list)
  else None.

End sdk_group.

Import sdk_group.

(** ** The board *)

Module sdk_board.

(** Modelled from the spec: the [Board] class is not among the sources.
    The board owns 81 tiles in row-major order, the tile of row [r] and
    column [c] at position [9 * r + c], and 27 groups built once: nine
    rows, nine columns, nine blocks. *)
Abbreviation Board := (list Tile).

Definition digit_str (n : nat) : string :=
  String (Ascii.ascii_of_nat (48 + n)) EmptyString.

Definition row_group (r : nat) : Group :=
  mkGroup ("Row " +:+ digit_str r) ((λ c, 9 * r + c) <$> seq 0 9).

Definition column_group (c : nat) : Group :=
  mkGroup ("Column " +:+ digit_str c) ((λ r, 9 * r + c) <$> seq 0 9).

Definition block_group (k : nat) : Group :=
  mkGroup ("Block " +:+ digit_str k)
    (r ← seq 0 3; c ← seq 0 3; [9 * (3 * (k / 3) + r) + (3 * (k mod 3) + c)]).

Definition groups : list Group :=
  (row_group <$> seq 0 9) ++ (column_group <$> seq 0 9)
  ++ (block_group <$> seq 0 9).

(** Modelled from the spec: [Board.is_solved()] holds iff every group is
    complete. *)
Definition is_solved (b : Board) : bool :=
  forallb (λ g, is_complete g b) groups.

(** Modelled from the spec: [Board.is_consistent()] holds iff every group
    is consistent. *)
Definition is_consistent (b : Board) : bool :=
  forallb (λ g, sdk_group.is_consistent g b) groups.

(** Modelled from the spec: [Board.as_list()] is the row-major sequence
    of the 81 tile values. *)
Definition as_list (b : Board) : list string := value <$> b.

Section set_tiles.

(** Modelled from the spec: what [set_tiles] makes of the candidates of a
    tile restored to UNKNOWN is left open there (recomputed from scratch
    or relative to the tile's groups), except that it is recomputed from
    the restored values.  [recompute snapshot i] stands for the candidates
    given to the UNKNOWN tile at position [i]. *)
Variable recompute : list string → nat → pyset.

Definition restore_tile (snapshot : list string) (i : nat) (v : string)
    : Tile :=
  if bool_decide (v = UNKNOWN) then mkTile UNKNOWN (recompute snapshot i)
  else set_value (mkTile v ∅) v.

(** Modelled from the spec: [Board.set_tiles(snapshot)] restores the value
    of every tile from the snapshot and recomputes the candidates. *)
Definition set_tiles (b : Board) (snapshot : list string) : Board :=
  imap (λ i _, restore_tile snapshot i (snapshot !!! i)) b.

End set_tiles.

(** Candidates recomputed from scratch: every digit. *)
Definition recompute_all (snapshot : list string) (i : nat) : pyset :=
  list_to_set CHOICES.

End sdk_board.

Import sdk_board.

(** ** The solver *)

Module sdk_solver.

(** What a call comes to: a returned flag with the board as the call left
    it, an exception, or a model run that was cut short. *)
Inductive outcome :=
| Return (r : bool) (b : Board)
| Raise (e : string)
| OutOfFuel.

Definition naked_single (b : Board) : Board * bool :=
  foldl (λ '(b, changed) g,
           let '(b', ch) := naked_single_constrain g b in (b', ch || changed))
        (b, false) groups.

Section solver.

Variable enum : pyset → list string.
Variable recompute : list string → nat → pyset.

Definition hidden_single (b : Board) : Board * bool :=
  foldl (λ '(b, changed) g,
           let '(b', ch) := hidden_single_constrain enum g b in
           (b', ch || changed))
        (b, false) groups.

(** One pass through the body of the [while changed] loop of [propagate]:
    the board it leaves and whether the loop goes round again.  Either
    [return] inside the body ends the loop. *)
Definition propagate_round (b : Board) : Board * bool :=
  let '(b1, changed) := naked_single b in
  if is_solved b1 || negb (is_consistent b1) then (b1, false)
  else
    let '(b2, ch) := hidden_single b1 in
    let changed := ch || changed in
    if is_solved b2 || negb (is_consistent b2) then (b2, false)
    else (b2, changed).

(** The loop itself; [fuel] bounds the number of passes and [None] means
    the bound was reached. *)
Fixpoint propagate_loop (fuel : nat) (b : Board) : option Board :=
  match fuel with
  | 0 => None
  | S fuel' =>
      let '(b', again) := propagate_round b in
      if again then propagate_loop fuel' b' else Some b'
  end.

(** Candidates and UNKNOWN tiles left on the board: every round of the
    loop that changes something lowers it. *)
Definition tile_weight (t : Tile) : nat :=
  size (candidates t) + (if bool_decide (value t = UNKNOWN) then 1 else 0).

Definition board_weight (b : Board) : nat :=
  foldr (λ t n, tile_weight t + n) 0 b.

Definition propagate (b : Board) : option Board :=
  propagate_loop (S (board_weight b)) b.

(** Positions in the order of [for row in board.tiles: for tile in row]. *)
Definition row_major : list nat :=
  r ← seq 0 9; c ← seq 0 9; [9 * r + c].

(** The scan for the tile to guess on: [(best_tile, min_cands)]. *)
Definition scan_step (b : Board) (acc : option nat * nat) (i : nat)
    : option nat * nat :=
  let '(best_tile, min_cands) := acc in
  let tile := tile_of b i in
  if bool_decide (value tile = UNKNOWN)
     && bool_decide (size (candidates tile) < min_cands)
  then (Some i, size (candidates tile))
  else (best_tile, min_cands).

Definition scan (b : Board) : option nat * nat :=
  foldl (scan_step b) (None, 10) row_major.

(** The loop over the candidates of the chosen tile.  [cands] is the
    enumeration of the set the tile held when the loop began; [set_value]
    gives the tile a new set and leaves that one as it was. *)
Definition guess_loop (solve' : Board → outcome) (save : list string)
    (best_tile : nat) : list string → Board → outcome :=
  fix go (cands : list string) (b : Board) : outcome :=
    match cands with
    | [] => Return false b
    | c :: cands' =>
        let b1 := <[best_tile := set_value (tile_of b best_tile) c]> b in
        match solve' b1 with
        | Return true b2 => Return true b2
        | Return false b2 => go cands' (set_tiles recompute b2 save)
        | other => other
        end
    end.

(** [solve]; [fuel] bounds the depth of the recursion. *)
Fixpoint solve (fuel : nat) (b : Board) : outcome :=
  match fuel with
  | 0 => OutOfFuel
  | S fuel' =>
      match propagate b with
      | None => OutOfFuel
      | Some b1 =>
          if is_solved b1 then Return true b1
          else if negb (is_consistent b1) then Return false b1
          else
            let save := as_list b1 in
            match fst (scan b1) with
            | None => Raise "AttributeError"
            | Some best_tile =>
                guess_loop (solve fuel') save best_tile
                  (enum (candidates (tile_of b1 best_tile))) b1
            end
      end
  end.

End solver.

End sdk_solver.

Import sdk_solver.

(** ** Well-formed boards *)

(** The data model's invariants: candidates are digits, and an assigned
    tile has its value as its only candidate. *)
Definition tile_ok (t : Tile) : bool :=
  bool_decide (candidates t ⊆ list_to_set CHOICES)
  && (bool_decide (value t = UNKNOWN)
      || bool_decide (candidates t = {[ value t ]})).

Definition board_ok (b : Board) : bool :=
  bool_decide (length b = 81) && forallb tile_ok b.

(** A board built from 81 symbols, as the constructor does it: an
    assigned tile has its value as only candidate, an UNKNOWN tile every
    digit. *)
Definition board_of (vs : list string) : Board :=
  (λ v, if bool_decide (v = UNKNOWN) then mkTile UNKNOWN (list_to_set CHOICES)
        else mkTile v {[ v ]}) <$> vs.

Fixpoint symbols (s : string) : list string :=
  match s with
  | EmptyString => []
  | String c s' => String c EmptyString :: symbols s'
  end.

(** ** Vocabulary of the statements *)

Definition digits : pyset := list_to_set CHOICES.

(** Two positions of a list of values hold the same assigned value. *)
Definition has_dup (vs : list string) : Prop :=
  ∃ p q v, p < q ∧ vs !! p = Some v ∧ vs !! q = Some v ∧ v ≠ UNKNOWN.

(** A set is enumerated without repetition and without omission. *)
Definition enum_ok (enum : pyset → list string) : Prop :=
  ∀ X, NoDup (enum X) ∧ ∀ x, x ∈ enum X ↔ x ∈ X.

(** Candidates recomputed by [set_tiles] are digits. *)
Definition recompute_ok (recompute : list string → nat → pyset) : Prop :=
  ∀ snapshot i, recompute snapshot i ⊆ digits.

(** What the tactics may do to a tile: drop candidates, and leave an
    assigned tile alone. *)
Definition narrows (t t' : Tile) : Prop :=
  candidates t' ⊆ candidates t ∧ (value t ≠ UNKNOWN → t' = t).

(** What a tactic may do to a board: narrow tiles, keep them well formed,
    and either report a change and lower the weight, or report none and
    leave the board as it was. *)
Definition advances (b b' : Board) (changed : bool) : Prop :=
  Forall2 narrows b b' ∧ Forall (λ t, tile_ok t = true) b'
  ∧ (if changed then board_weight b' < board_weight b else b' = b).

(** A call that ends well: no exception, and a returned board is well
    formed. *)
Definition safe (o : outcome) : Prop :=
  match o with
  | Return _ b' => board_ok b' = true
  | Raise _ => False
  | OutOfFuel => True
  end.

(** A symbol of a snapshot: the placeholder or a digit. *)
Definition symbol_ok (v : string) : Prop := v = UNKNOWN ∨ v ∈ digits.

(** ** Boards of the examples *)

(** A solved grid with the first two cells of its first row exchanged:
    complete, with a 3 twice in the first column. *)
Definition swapped_grid : Board := board_of (symbols
  ("354678912" +:+ "672195348" +:+ "198342567" +:+
   "859761423" +:+ "426853791" +:+ "713924856" +:+
   "961537284" +:+ "287419635" +:+ "345286179")).

(** A complete grid whose last row holds 5 twice. *)
Definition two_fives : Board := board_of (symbols
  ("534678912" +:+ "672195348" +:+ "198342567" +:+
   "859761423" +:+ "426853791" +:+ "713924856" +:+
   "961537284" +:+ "287419635" +:+ "345286175")).

(** A puzzle with one solution on which propagation stalls with every
    UNKNOWN tile holding two candidates or more. *)
Definition stalled_puzzle : Board := board_of (symbols
  ("417369825" +:+ ".3......." +:+ "...7....." +:+
   ".2.....6." +:+ "7...8.4.." +:+ "....1...." +:+
   "...6.3.7." +:+ "5..2....." +:+ "1.4......")).

(** [stalled_puzzle] as propagation leaves it. *)
Definition stalled_board : Board :=
  default [] (propagate elements stalled_puzzle).

(** The row [1 2 3 4 5 _ 7 8 9] on its own. *)
Definition row_with_gap : list Tile := board_of (symbols "12345.789").

(** The puzzle of the first nine rows of a well-known example. *)
Definition easy_puzzle : Board := board_of (symbols
  ("53..7...." +:+ "6..195..." +:+ ".98....6." +:+
   "8...6...3" +:+ "4..8.3..1" +:+ "7...2...6" +:+
   ".6....28." +:+ "...419..5" +:+ "....8..79")).

(** A row in which the digits 1 and 2 can only go to the first tile:
    [.{1,2} .{3} .{3} 4 5 6 7 8 9]. *)
Definition crowded_row : list Tile :=
  ([mkTile UNKNOWN {[ "1"; "2" ]}; mkTile UNKNOWN {[ "3" ]};
   mkTile UNKNOWN {[ "3" ]}] ++ board_of (symbols "456789"))%list.

(** A row in which 1 has two tiles to go to until 3 is placed:
    [.{1,3} .{1,2} .{2} 4 5 6 7 8 9]. *)
Definition staged_row : list Tile :=
  ([mkTile UNKNOWN {[ "1"; "3" ]}; mkTile UNKNOWN {[ "1"; "2" ]};
   mkTile UNKNOWN {[ "2" ]}] ++ board_of (symbols "456789"))%list.

(** ** The guess loop as the spec has it *)

(** The board a candidate is tried on: the first candidate on the board
    as [propagate] left it, every later one on the board [set_tiles]
    makes of the snapshot of that board; on either, the chosen tile is
    given the candidate. *)
Definition tried_on (recompute : list string → nat → pyset) (b1 : Board)
    (best_tile k : nat) (c : string) : Board :=
  let start :=
    match k with
    | 0 => b1
    | S _ => set_tiles recompute b1 (as_list b1)
    end in
  <[best_tile := set_value (tile_of start best_tile) c]> start.

(** The search over trial boards fixed beforehand: [solve'] is run on
    them in turn until one call returns true; when all have returned
    false the board is [restored], or [b] when there was no trial. *)
Fixpoint try_each (solve' : Board → outcome) (restored : Board)
    (trials : list Board) (b : Board) : outcome :=
  match trials with
  | [] => Return false b
  | t :: trials' =>
      match solve' t with
      | Return true b2 => Return true b2
      | Return false _ => try_each solve' restored trials' restored
      | other => other
      end
  end.

(** A puzzle with one solution on which propagation stalls and the
    first guess fails. *)
Definition guess_puzzle : Board := board_of (symbols
  ("3..6.5..4" +:+ "1.....38." +:+ ".4.8....." +:+
   "78.95...2" +:+ "423178..6" +:+ "5.934.7.8" +:+
   "6....38.." +:+ "815....7." +:+ "..758....")).

(** [guess_puzzle] as propagation leaves it. *)
Definition guess_board : Board :=
  default [] (propagate elements guess_puzzle).

(** The solution of [guess_puzzle]. *)
Definition guess_solution : list string := symbols
  ("378615924" +:+ "156294387" +:+ "942837165" +:+
   "781956432" +:+ "423178596" +:+ "569342718" +:+
   "694723851" +:+ "815469273" +:+ "237581649").

(** A grid without solution on which propagation stalls with no
    contradiction in sight, and every guess fails. *)
Definition dead_end_board : Board := board_of (symbols
  ("..74135.2" +:+ "3...629.8" +:+ ".......1." +:+
   "....84.35" +:+ "..86...2." +:+ ".6..291.." +:+
   ".893.6..." +:+ ".2.891..3" +:+ "..4...8..")).

(** [dead_end_board] as propagation leaves it, and its values. *)
Definition dead_end_stalled : Board :=
  default [] (propagate elements dead_end_board).

Definition dead_end_values : list string := symbols
  ("897413562" +:+ "3.1.629.8" +:+ "2.69.831." +:+
   "972184635" +:+ ".1863..29" +:+ ".63.2918." +:+
   "789346251" +:+ "625891..3" +:+ "1342..896").

Abbreviation all_ok b := (Forall (λ t, tile_ok t = true) b).

Abbreviation cands_at b i := (size (candidates (tile_of b i))).


Open Scope nat_scope.

(** ** Solutions *)

(** The number of UNKNOWN tiles of a board. *)
Definition unknowns (b : Board) : nat :=
  length (filter (λ t, value t = UNKNOWN) b).

(** A grid of 81 symbols solves Sudoku when every group holds each digit
    once. *)
Definition is_solution (s : list string) : Prop :=
  length s = 81
  ∧ Forall (λ g, ((λ i, s !!! i) <$> tiles g) ≡ₚ CHOICES) groups.

(** A tile leaves room for a digit: the digit is a candidate, and is the
    value when the tile has one. *)
Definition fits (t : Tile) (d : string) : Prop :=
  d ∈ candidates t ∧ (value t ≠ UNKNOWN → value t = d).

(** A board leaves room for a grid. *)
Definition agrees (b : Board) (s : list string) : Prop := Forall2 fits b s.

(** Candidates recomputed by [set_tiles] leave room for a grid. *)
Definition recompute_fits (recompute : list string → nat → pyset)
    (s : list string) : Prop :=
  ∀ snapshot i, (i < length s)%nat → s !!! i ∈ recompute snapshot i.

(** ** What naked single does to a tile *)

(** The values assigned in a group: [set_remaining] in
    [naked_single_constrain]. *)
Definition used_values (g : Group) (st : list Tile) : pyset :=
  list_to_set (filter (λ v, v ≠ UNKNOWN) (value <$> members g st)).

(** An UNKNOWN tile with the used values struck from its candidates; an
    assigned tile as it is. *)
Definition narrowed (used : pyset) (t : Tile) : Tile :=
  if bool_decide (value t = UNKNOWN)
  then mkTile UNKNOWN (candidates t ∖ used) else t.

(** The solutions of [easy_puzzle] and of [stalled_puzzle]. *)
Definition easy_solution : list string := symbols
  ("534678912" +:+ "672195348" +:+ "198342567" +:+
   "859761423" +:+ "426853791" +:+ "713924856" +:+
   "961537284" +:+ "287419635" +:+ "345286179").

Definition stalled_solution : list string := symbols
  ("417369825" +:+ "632158947" +:+ "958724316" +:+
   "825437169" +:+ "791586432" +:+ "346912758" +:+
   "289643571" +:+ "573291684" +:+ "164875293").

(** * Proofs *)

(** ** Tiles and stores *)

Lemma tile_of_lookup (st : list Tile) (i : nat) t : st !! i = Some t → tile_of st i = t.
Proof. intros H. unfold tile_of. by apply list_lookup_total_correct. Qed.

Lemma tile_of_ge (st : list Tile) (i : nat) :
  (length st ≤ i)%nat → tile_of st i = mkTile UNKNOWN ∅.
Proof.
  intros H. unfold tile_of. rewrite list_lookup_total_alt.
  by rewrite (lookup_ge_None_2 _ _ H).
Qed.

Lemma tile_of_elem (st : list Tile) (i : nat) : (i < length st)%nat → tile_of st i ∈ st.
Proof.
  intros H. destruct (lookup_lt_is_Some_2 _ _ H) as [t Ht].
  rewrite (tile_of_lookup _ _ _ Ht). by eapply list_elem_of_lookup_2.
Qed.

Lemma tile_of_insert_eq (st : list Tile) (i : nat) t :
  (i < length st)%nat → tile_of (<[i := t]> st) i = t.
Proof. intros H. unfold tile_of. by apply list_lookup_total_insert_eq. Qed.

Lemma tile_of_insert_ne (st : list Tile) (i j : nat) t :
  i ≠ j → tile_of (<[i := t]> st) j = tile_of st j.
Proof. intros H. unfold tile_of. by apply list_lookup_total_insert_ne. Qed.

Lemma tile_eta (t : Tile) : mkTile (value t) (candidates t) = t.
Proof. by destruct t. Qed.

Lemma tile_ok_spec t :
  tile_ok t = true ↔
    candidates t ⊆ digits ∧ (value t ≠ UNKNOWN → candidates t = {[ value t ]}).
Proof.
  unfold tile_ok. fold digits.
  rewrite andb_true_iff, orb_true_iff, !bool_decide_eq_true.
  split; intros [H1 H2]; (split; [exact H1|]).
  - intros Hne. by destruct H2.
  - destruct (decide (value t = UNKNOWN)); [by left | right; auto].
Qed.

Lemma tile_ok_default : tile_ok (mkTile UNKNOWN ∅) = true.
Proof. apply tile_ok_spec; simpl. split; [apply empty_subseteq | done]. Qed.

Lemma tile_of_ok (st : list Tile) (i : nat) :
  Forall (λ t, tile_ok t = true) st → tile_ok (tile_of st i) = true.
Proof.
  intros Hst. destruct (decide (i < length st)%nat) as [Hlt|Hge].
  - rewrite Forall_forall in Hst. by apply Hst, tile_of_elem.
  - rewrite tile_of_ge by lia. apply tile_ok_default.
Qed.

(** Digits are one-character strings, so [set(v)] is [{v}] for a digit. *)
Lemma digits_elem v :
  v ∈ digits ↔ v ∈ CHOICES.
Proof. unfold digits. apply elem_of_list_to_set. Qed.

Lemma set_of_str_digit v : v ∈ digits → set_of_str v = {[ v ]}.
Proof.
  rewrite digits_elem. unfold CHOICES.
  rewrite !elem_of_cons, elem_of_nil.
  intros H. repeat (destruct H as [-> | H]; [apply (right_id_L ∅ (∪)) |]).
  done.
Qed.

Lemma UNKNOWN_not_digit : UNKNOWN ∉ digits.
Proof.
  rewrite digits_elem. unfold CHOICES, UNKNOWN.
  rewrite !elem_of_cons, elem_of_nil. intros H.
  repeat (destruct H as [H | H]; [discriminate H |]). done.
Qed.

Lemma digit_not_UNKNOWN c : c ∈ digits → c ≠ UNKNOWN.
Proof. intros Hc ->. by apply UNKNOWN_not_digit. Qed.

Lemma tile_ok_value t :
  tile_ok t = true → value t = UNKNOWN ∨ value t ∈ digits.
Proof.
  intros [Hc Hv]%tile_ok_spec.
  destruct (decide (value t = UNKNOWN)) as [|Hne]; [by left | right].
  apply Hc. rewrite (Hv Hne). by apply elem_of_singleton.
Qed.

(** ** [Group.is_consistent] *)

Lemma has_dup_cons v vs :
  has_dup (v :: vs) ↔ (v ≠ UNKNOWN ∧ v ∈ vs) ∨ has_dup vs.
Proof.
  split.
  - intros (p & q & w & Hpq & Hp & Hq & Hw).
    destruct q as [|q]; [lia|]. simpl in Hq.
    destruct p as [|p]; simpl in Hp.
    + left. injection Hp as ->. split; [exact Hw|]. by eapply list_elem_of_lookup_2.
    + right. exists p, q, w. repeat split; auto with lia.
  - intros [[Hv Hin] | (p & q & w & Hpq & Hp & Hq & Hw)].
    + apply list_elem_of_lookup_1 in Hin as [q Hq].
      exists 0, (S q), v. repeat split; auto with lia.
    + exists (S p), (S q), w. repeat split; auto with lia.
Qed.

Lemma is_consistent_loop_nil can_place used :
  is_consistent_loop [] can_place used = negb (bool_decide (can_place ≠ digits)).
Proof. reflexivity. Qed.

Lemma is_consistent_loop_cons tile ts can_place used :
  is_consistent_loop (tile :: ts) can_place used =
    if bool_decide (size (candidates tile) = 0) then false
    else if bool_decide (value tile ∈ used) then false
    else is_consistent_loop ts (can_place ∪ candidates tile)
           (if bool_decide (value tile ≠ UNKNOWN) then used ∪ {[ value tile ]}
            else used).
Proof. reflexivity. Qed.

Lemma is_consistent_loop_false ts : ∀ can_place used,
  (∀ t, t ∈ ts → candidates t ⊆ digits) → can_place ⊆ digits →
  UNKNOWN ∉ used →
  is_consistent_loop ts can_place used = false ↔
    (∃ t, t ∈ ts ∧ candidates t = ∅)
    ∨ (∃ t, t ∈ ts ∧ value t ∈ used)
    ∨ has_dup (value <$> ts)
    ∨ ¬ (digits ⊆ can_place ∪ ⋃ (candidates <$> ts)).
Proof.
  generalize is_consistent_loop_nil. generalize digits as D. intros D Hnil.
  induction ts as [|t ts IH]; intros can_place used Hts Hcan Hused.
  - rewrite Hnil, negb_false_iff, bool_decide_eq_true. clear Hnil. split.
    + intros Hne. do 3 right. intros Hsub. apply Hne. clear Hne Hts Hused.
      set_solver.
    + intros [(t & Ht & _) | [(t & Ht & _) | [(p & q & v & _ & Hp & _) | Hn]]].
      * by apply elem_of_nil in Ht.
      * by apply elem_of_nil in Ht.
      * done.
      * intros ->. apply Hn. clear. set_solver.
  - assert (Ht : candidates t ⊆ D) by (apply Hts; left).
    assert (Hts' : ∀ t', t' ∈ ts → candidates t' ⊆ D)
      by (intros; apply Hts; by right).
    rewrite is_consistent_loop_cons, !fmap_cons, has_dup_cons.
    change (⋃ (candidates t :: (candidates <$> ts)))
      with (candidates t ∪ ⋃ (candidates <$> ts)).
    case_bool_decide as Hsz.
    { split; [|done]. intros _. left. exists t. split; [left|].
      by apply size_empty_inv, leibniz_equiv in Hsz. }
    case_bool_decide as Hin.
    { split; [|done]. intros _. right; left. exists t. split; [left|done]. }
    assert (Hne : candidates t ≠ ∅).
    { intros Heq. apply Hsz. rewrite Heq. apply size_empty. }
    assert (Hu' : UNKNOWN ∉ (if bool_decide (value t ≠ UNKNOWN)
                             then used ∪ {[value t]} else used)).
    { case_bool_decide as Hv; [|done].
      intros [?|Hx%elem_of_singleton]%elem_of_union; [done|]. by apply Hv. }
    assert (Hc' : can_place ∪ candidates t ⊆ D).
    { clear -Hcan Ht. set_solver. }
    rewrite (IH _ _ Hts' Hc' Hu').
    rewrite <- (assoc_L (∪)). clear IH Hu' Hc' Hts' Hts Hnil.
    split.
    + intros [(t' & Ht' & He) | [(t' & Ht' & Hv) | [Hd | Hn]]].
      * left. exists t'. split; [by right|done].
      * case_bool_decide as Hu.
        -- apply elem_of_union in Hv as [Hv|Hv].
           ++ right; left. exists t'. split; [by right|done].
           ++ do 2 right; left. left. split; [done|].
              apply elem_of_singleton in Hv. rewrite <- Hv.
              by apply list_elem_of_fmap_2.
        -- right; left. exists t'. split; [by right|done].
      * do 2 right; left. by right.
      * do 3 right. done.
    + intros [(t' & Ht' & He) | [(t' & Ht' & Hv) | [[[Hu Hd] | Hd] | Hn]]].
      * apply elem_of_cons in Ht' as [-> | Ht']; [done|].
        left. by exists t'.
      * apply elem_of_cons in Ht' as [-> | Ht']; [done|].
        right; left. exists t'. split; [done|].
        case_bool_decide; [apply elem_of_union; by left|done].
      * apply list_elem_of_fmap in Hd as (t' & Hv & Ht').
        right; left. exists t'. split; [done|].
        rewrite bool_decide_eq_true_2 by done.
        apply elem_of_union; right. by apply elem_of_singleton.
      * do 2 right; left. done.
      * do 3 right. done.
Qed.

Lemma members_elem g st t :
  t ∈ members g st ↔ ∃ i, i ∈ tiles g ∧ t = tile_of st i.
Proof.
  unfold members. rewrite list_elem_of_fmap. split; intros (i & H1 & H2); eauto.
Qed.

Lemma members_lookup g st (p : nat) t :
  members g st !! p = Some t ↔ ∃ i, tiles g !! p = Some i ∧ t = tile_of st i.
Proof.
  unfold members. rewrite list_lookup_fmap.
  destruct (tiles g !! p) as [i|]; simpl; split.
  - intros [= <-]. eauto.
  - intros (j & [= <-] & ->). done.
  - done.
  - intros (j & Hj & _). done.
Qed.

(** The characterisation of [Group.is_consistent], for tiles whose
    candidates are digits. *)
Lemma group_is_consistent_false g st :
  (∀ t, t ∈ members g st → candidates t ⊆ digits) →
  sdk_group.is_consistent g st = false ↔
    (∃ t, t ∈ members g st ∧ candidates t = ∅)
    ∨ has_dup (value <$> members g st)
    ∨ ¬ (digits ⊆ ⋃ (candidates <$> members g st)).
Proof.
  intros Hok. unfold sdk_group.is_consistent.
  rewrite is_consistent_loop_false;
    [| exact Hok | apply empty_subseteq | apply not_elem_of_empty].
  rewrite (left_id_L ∅ (∪)). split.
  - intros [H | [(t & _ & Ht) | [H | H]]]; auto.
    by apply not_elem_of_empty in Ht.
  - intros [H | [H | H]]; auto.
Qed.

(** *** C3 *)

(** C3: [Group.is_consistent] returns false if and only if some member
    tile has no candidate left, or two members hold the same assigned
    value, or the candidates of the members together do not cover the
    digits 1 to 9; otherwise it returns true.  Candidates are sets of
    digits, which is what makes "differs from the set of digits" the same
    as "does not cover it". *)
Theorem C3_group_is_consistent_iff (g : Group) (st : list Tile) :
  (∀ t, t ∈ members g st → candidates t ⊆ list_to_set CHOICES) →
  (sdk_group.is_consistent g st = false ↔
     (∃ t, t ∈ members g st ∧ candidates t = ∅)
     ∨ (∃ p q t1 t2, p ≠ q ∧ members g st !! p = Some t1
          ∧ members g st !! q = Some t2
          ∧ value t1 ≠ UNKNOWN ∧ value t1 = value t2)
     ∨ (∃ d, d ∈ CHOICES ∧ ∀ t, t ∈ members g st → d ∉ candidates t))
  ∧ (sdk_group.is_consistent g st = true ↔
     (∀ t, t ∈ members g st → candidates t ≠ ∅)
     ∧ (∀ p q t1 t2, p ≠ q → members g st !! p = Some t1
          → members g st !! q = Some t2
          → value t1 ≠ UNKNOWN → value t1 ≠ value t2)
     ∧ (∀ d, d ∈ CHOICES → ∃ t, t ∈ members g st ∧ d ∈ candidates t)).
Proof.
  intros Hok. fold digits in Hok.
  assert (Hcover : digits ⊆ ⋃ (candidates <$> members g st) ↔
     ∀ d, d ∈ CHOICES → ∃ t, t ∈ members g st ∧ d ∈ candidates t).
  { split.
    - intros Hs d Hd%digits_elem. apply Hs in Hd.
      apply elem_of_union_list in Hd as (X & HX & Hd).
      apply list_elem_of_fmap in HX as (t & -> & Ht). eauto.
    - intros H d Hd%digits_elem. destruct (H d Hd) as (t & Ht & Hdt).
      apply elem_of_union_list. exists (candidates t). split; [|done].
      by apply list_elem_of_fmap_2. }
  assert (Hdup : has_dup (value <$> members g st) ↔
     ∃ p q t1 t2, p ≠ q ∧ members g st !! p = Some t1
          ∧ members g st !! q = Some t2
          ∧ value t1 ≠ UNKNOWN ∧ value t1 = value t2).
  { split.
    - intros (p & q & v & Hpq & Hp & Hq & Hv).
      rewrite list_lookup_fmap in Hp, Hq.
      destruct (members g st !! p) as [t1|] eqn:E1; [|done].
      destruct (members g st !! q) as [t2|] eqn:E2; [|done].
      simpl in Hp, Hq. injection Hp as Hp. injection Hq as Hq.
      exists p, q, t1, t2. repeat split; try done; try lia; congruence.
    - intros (p & q & t1 & t2 & Hpq & Hp & Hq & Hv & He).
      destruct (decide (p < q)).
      + exists p, q, (value t1). rewrite !list_lookup_fmap, Hp, Hq. simpl.
        repeat split; try done; try lia; by rewrite He.
      + exists q, p, (value t1). rewrite !list_lookup_fmap, Hp, Hq. simpl.
        repeat split; try done; try lia; by rewrite He. }
  assert (Hfalse := group_is_consistent_false g st Hok).
  split.
  - rewrite Hfalse, Hdup, Hcover. split.
    + intros [H | [H | H]]; [by left | by right; left | right; right].
      destruct (decide (Forall (λ d, Exists (λ t, d ∈ candidates t)
                                   (members g st)) CHOICES)) as [Hall|Hex].
      * exfalso. apply H. intros d Hd.
        rewrite Forall_forall in Hall. apply Hall in Hd.
        by apply Exists_exists in Hd.
      * apply not_Forall_Exists in Hex; [|apply _].
        apply Exists_exists in Hex as (d & Hd & Hn). exists d. split; [done|].
        intros t Ht Hdt. apply Hn. apply Exists_exists. eauto.
    + intros [H | [H | (d & Hd & Hn)]]; [by left | by right; left | right; right].
      intros Hall. destruct (Hall d Hd) as (t & Ht & Hdt). by apply (Hn t).
  - rewrite <- not_false_iff_true, Hfalse, Hdup, Hcover. split.
    + intros Hn. split; [|split].
      * intros t Ht He. apply Hn. left. eauto.
      * intros p q t1 t2 Hpq Hp Hq Hv He. apply Hn. right; left.
        exists p, q, t1, t2. done.
      * intros d Hd.
        destruct (decide (Exists (λ t, d ∈ candidates t) (members g st)))
          as [Hex|Hex]; [by apply Exists_exists in Hex|].
        exfalso. apply Hn. right; right. intros Hall. apply Hex.
        apply Exists_exists. auto.
    + intros (H1 & H2 & H3) [(t & Ht & He) | [(p&q&t1&t2&Hpq&Hp&Hq&Hv&He) | H]].
      * by apply (H1 t).
      * by apply (H2 p q t1 t2).
      * by apply H.
Qed.

(** ** Tactics narrow the board *)

Lemma narrows_refl t : narrows t t.
Proof. split; [done | auto]. Qed.

Lemma narrows_trans t1 t2 t3 : narrows t1 t2 → narrows t2 t3 → narrows t1 t3.
Proof.
  intros [Hc1 Hv1] [Hc2 Hv2]. split.
  - by etrans.
  - intros Hv. rewrite <- (Hv1 Hv). apply Hv2. by rewrite (Hv1 Hv).
Qed.

Lemma Forall2_narrows_refl (b : Board) : Forall2 narrows b b.
Proof. induction b; constructor; auto using narrows_refl. Qed.

Lemma Forall2_narrows_trans (b1 b2 b3 : Board) :
  Forall2 narrows b1 b2 → Forall2 narrows b2 b3 → Forall2 narrows b1 b3.
Proof.
  intros H12. revert b3. induction H12; intros b3 H23; inversion H23; subst;
    constructor; eauto using narrows_trans.
Qed.

Lemma advances_refl (b : Board) : all_ok b → advances b b false.
Proof. intros H. repeat split; [apply Forall2_narrows_refl | done]. Qed.

Lemma advances_trans (b1 b2 b3 : Board) c1 c2 :
  advances b1 b2 c1 → advances b2 b3 c2 → advances b1 b3 (c2 || c1).
Proof.
  intros (Hn1 & Hok1 & Hw1) (Hn2 & Hok2 & Hw2). split; [|split].
  - by eapply Forall2_narrows_trans.
  - done.
  - destruct c1, c2; simpl; subst; try done. lia.
Qed.

Lemma advances_length (b b' : Board) c : advances b b' c → length b' = length b.
Proof. intros (Hn & _). symmetry. by eapply Forall2_length. Qed.

Lemma board_weight_insert (st : Board) (i : nat) t :
  i < length st →
  board_weight (<[i := t]> st) + tile_weight (tile_of st i)
  = board_weight st + tile_weight t.
Proof.
  revert i. induction st as [|x st IH]; intros i Hi; simpl in Hi; [lia|].
  destruct i as [|i].
  - change (tile_weight t + board_weight st + tile_weight x
            = tile_weight x + board_weight st + tile_weight t). lia.
  - change (tile_weight x + board_weight (<[i := t]> st)
              + tile_weight (tile_of st i)
            = tile_weight x + board_weight st + tile_weight t).
    specialize (IH i ltac:(lia)). lia.
Qed.

Lemma Forall2_narrows_insert (st : Board) (i : nat) t :
  narrows (tile_of st i) t → Forall2 narrows st (<[i := t]> st).
Proof.
  revert i. induction st as [|x st IH]; intros i Hn; [constructor|].
  destruct i as [|i]; constructor; auto using narrows_refl, Forall2_narrows_refl.
Qed.

Lemma advances_insert (st : Board) (i : nat) t :
  all_ok st → i < length st → narrows (tile_of st i) t → tile_ok t = true →
  tile_weight t < tile_weight (tile_of st i) →
  advances st (<[i := t]> st) true.
Proof.
  intros Hok Hi Hn Ht Hw. split; [|split].
  - by apply Forall2_narrows_insert.
  - by apply Forall_insert.
  - pose proof (board_weight_insert st i t Hi). lia.
Qed.

(** A loop that threads the board and the [changed] flag advances the
    board when each of its rounds does. *)
Lemma advances_foldl {A} (step : Board * bool → A → Board * bool)
    (I : list A → Board → Prop) :
  (∀ x xs st c, all_ok st → I (x :: xs) st →
     ∃ st' ch, step (st, c) x = (st', ch || c) ∧ advances st st' ch ∧ I xs st') →
  ∀ xs st c, all_ok st → I xs st →
     ∃ st' ch, foldl step (st, c) xs = (st', ch || c) ∧ advances st st' ch.
Proof.
  intros Hstep xs. induction xs as [|x xs IH]; intros st c Hok HI.
  - exists st, false. split; [done|]. by apply advances_refl.
  - destruct (Hstep x xs st c Hok HI) as (st1 & ch1 & E1 & Ha1 & HI1).
    destruct (IH st1 (ch1 || c) (proj1 (proj2 Ha1)) HI1)
      as (st2 & ch2 & E2 & Ha2).
    exists st2, (ch2 || ch1). split.
    + simpl. rewrite E1, E2. by rewrite orb_assoc.
    + by eapply advances_trans.
Qed.

(** *** Naked single *)

Lemma tile_weight_unknown t :
  value t = UNKNOWN → tile_weight t = size (candidates t) + 1.
Proof. intros H. unfold tile_weight. by rewrite bool_decide_eq_true_2. Qed.

Lemma naked_single_step_advances (R : pyset) (st : Board) c (i : nat) :
  all_ok st →
  ∃ st' ch, naked_single_step R (st, c) i = (st', ch || c)
            ∧ advances st st' ch.
Proof.
  intros Hok. unfold naked_single_step.
  case_bool_decide as Hv; [|exists st, false; split; [done|by apply advances_refl]].
  unfold eliminate. rewrite bool_decide_eq_true_2 by done.
  set (t := tile_of st i) in *.
  destruct (decide (candidates t ∖ R = candidates t)) as [He|Hne].
  - exists st, false. rewrite bool_decide_eq_false_2 by (intros H; by apply H).
    split; [|by apply advances_refl].
    rewrite He, tile_eta. f_equal. apply list_insert_id'.
    intros Hi. subst t. unfold tile_of.
    by apply list_lookup_lookup_total_lt.
  - eexists _, true. rewrite bool_decide_eq_true_2 by done. split; [done|].
    assert (Hi : i < length st).
    { destruct (decide (i < length st)) as [|Hge]; [done|]. exfalso.
      apply Hne. subst t. rewrite tile_of_ge by lia. simpl.
      clear. set_solver. }
    pose proof (tile_of_ok st i Hok) as Ht. fold t in Ht.
    apply tile_ok_spec in Ht as [Hc _].
    apply advances_insert; try done.
    + split; simpl; [apply subseteq_difference_l; done | done].
    + apply tile_ok_spec; simpl. split; [|done].
      etrans; [|exact Hc]. by apply subseteq_difference_l.
    + rewrite !tile_weight_unknown by done. simpl.
      assert (candidates t ∖ R ⊂ candidates t) as Hs.
      { split; [by apply subseteq_difference_l|].
        intros Hsub. apply Hne. apply (anti_symm (⊆)); [|done].
        by apply subseteq_difference_l. }
      apply subset_size in Hs. fold t. lia.
Qed.

Lemma naked_single_constrain_advances g (st : Board) :
  all_ok st →
  advances st (naked_single_constrain g st).1 (naked_single_constrain g st).2.
Proof.
  intros Hok. unfold naked_single_constrain.
  destruct (advances_foldl
    (naked_single_step
       (list_to_set (filter (λ v, v ≠ UNKNOWN) (value <$> members g st))))
    (λ _ _, True)) with (xs := tiles g) (st := st) (c := false)
    as (st' & ch & E & Ha); [|done|done|].
  - intros x xs st0 c Hok0 _.
    destruct (naked_single_step_advances
      (list_to_set (filter (λ v, v ≠ UNKNOWN) (value <$> members g st)))
      st0 c x Hok0) as (st' & ch & E & Ha). eauto.
  - rewrite E. simpl. by rewrite orb_false_r.
Qed.

Lemma naked_single_advances (b : Board) :
  all_ok b → advances b (naked_single b).1 (naked_single b).2.
Proof.
  intros Hok. unfold naked_single.
  destruct (advances_foldl
    (λ '(b, changed) g,
       let '(b', ch) := naked_single_constrain g b in (b', ch || changed))
    (λ _ _, True)) with (xs := groups) (st := b) (c := false)
    as (st' & ch & E & Ha); [|done|done|].
  - intros g gs st0 c Hok0 _.
    pose proof (naked_single_constrain_advances g st0 Hok0) as Ha.
    destruct (naked_single_constrain g st0) as [b' ch]. eauto.
  - rewrite E. simpl. by rewrite orb_false_r.
Qed.

(** *** Hidden single *)

Lemma leftovers_foldl (ts : list Tile) (L : pyset) v :
  v ∈ foldl (λ leftovers tile, leftovers ∖ set_of_str (value tile)) L ts
  ↔ v ∈ L ∧ ∀ t, t ∈ ts → v ∉ set_of_str (value t).
Proof.
  revert L. induction ts as [|t ts IH]; intros L.
  - split; [intros H; split; [done|] | by intros [H _]].
    intros t Ht. by apply elem_of_nil in Ht.
  - change (foldl _ L (t :: ts))
      with (foldl (λ leftovers tile, leftovers ∖ set_of_str (value tile))
                  (L ∖ set_of_str (value t)) ts).
    rewrite IH, elem_of_difference. split.
    + intros [[HL Ht] Hts]. split; [done|].
      intros t' [->|Ht']%elem_of_cons; auto.
    + intros [HL Hts]. split; [split; [done|] |].
      * apply Hts. left.
      * intros t' Ht'. apply Hts. by right.
Qed.

Lemma elem_of_leftovers g st v :
  v ∈ leftovers_of g st
  ↔ v ∈ digits ∧ ∀ t, t ∈ members g st → v ∉ set_of_str (value t).
Proof. unfold leftovers_of. apply leftovers_foldl. Qed.

Lemma leftovers_unassigned g st v (i : nat) :
  v ∈ leftovers_of g st → i ∈ tiles g → value (tile_of st i) ≠ v.
Proof.
  intros [Hd Hts]%elem_of_leftovers Hi He.
  apply (Hts (tile_of st i)); [apply members_elem; eauto|].
  rewrite He, set_of_str_digit by done. by apply elem_of_singleton.
Qed.

Lemma could_be_true t v : could_be t v = true ↔ v ∈ candidates t.
Proof. unfold could_be. apply bool_decide_eq_true. Qed.

Lemma tile_weight_assigned t :
  value t ≠ UNKNOWN → tile_weight t = size (candidates t) + 0.
Proof. intros H. unfold tile_weight. by rewrite bool_decide_eq_false_2. Qed.

(** The tile that hidden single assigns: it lies on the board, it was
    UNKNOWN, and the digit was one of its candidates. *)
Lemma hidden_bucket_tile g (st : Board) v (i : nat) :
  all_ok st → (∀ j, j ∈ tiles g → value (tile_of st j) ≠ v) →
  i ∈ filter (λ i, could_be (tile_of st i) v = true) (tiles g) →
  i ∈ tiles g ∧ i < length st ∧ value (tile_of st i) = UNKNOWN
  ∧ v ∈ candidates (tile_of st i) ∧ v ∈ digits.
Proof.
  intros Hok Hfree [Hc%could_be_true Hi]%list_elem_of_filter.
  pose proof (tile_of_ok st i Hok) as [Hsub Hval]%tile_ok_spec.
  split; [done|]. split; [|split; [|split; [done|by apply Hsub]]].
  - destruct (decide (i < length st)) as [|Hge]; [done|]. exfalso.
    rewrite tile_of_ge in Hc by lia. by apply not_elem_of_empty in Hc.
  - destruct (decide (value (tile_of st i) = UNKNOWN)) as [|Hne]; [done|].
    exfalso. rewrite (Hval Hne) in Hc. apply elem_of_singleton in Hc.
    by apply (Hfree i).
Qed.

Lemma hidden_single_step_advances g (st : Board) c v :
  all_ok st → (∀ j, j ∈ tiles g → value (tile_of st j) ≠ v) →
  ∃ st' ch, hidden_single_step g (st, c) v = (st', ch || c)
    ∧ advances st st' ch
    ∧ ∀ v', v' ≠ v → (∀ j, j ∈ tiles g → value (tile_of st j) ≠ v') →
        ∀ j, j ∈ tiles g → value (tile_of st' j) ≠ v'.
Proof.
  intros Hok Hfree. unfold hidden_single_step.
  destruct (filter _ (tiles g)) as [|i [|j l]] eqn:Eb;
    try (exists st, false; split; [done|]; split; [by apply advances_refl|];
         by auto).
  assert (Hin : i ∈ filter (λ i, could_be (tile_of st i) v = true) (tiles g))
    by (rewrite Eb; left).
  destruct (hidden_bucket_tile g st v i Hok Hfree Hin)
    as (Hig & Hi & Hu & Hc & Hd).
  eexists _, true. split; [done|]. split.
  - apply advances_insert; try done.
    + split; simpl; [by apply singleton_subseteq_l | done].
    + apply tile_ok_spec; simpl. split; [by apply singleton_subseteq_l|done].
    + rewrite (tile_weight_unknown _ Hu), tile_weight_assigned.
      2:{ unfold set_value; cbn [value].
          intros He. apply UNKNOWN_not_digit. by rewrite <- He. }
      unfold set_value; cbn [candidates]. rewrite size_singleton.
      assert (size (candidates (tile_of st i)) ≠ 0); [|lia].
      intros Hz%size_empty_inv%leibniz_equiv. rewrite Hz in Hc.
      by apply not_elem_of_empty in Hc.
  - intros v' Hv' Hfree' j Hj.
    destruct (decide (i = j)) as [<-|Hij].
    + rewrite tile_of_insert_eq by done. simpl. auto.
    + rewrite tile_of_insert_ne by done. auto.
Qed.

Lemma hidden_single_loop_advances g vs (st : Board) c :
  all_ok st → NoDup vs →
  (∀ v, v ∈ vs → ∀ j, j ∈ tiles g → value (tile_of st j) ≠ v) →
  ∃ st' ch, foldl (hidden_single_step g) (st, c) vs = (st', ch || c)
            ∧ advances st st' ch.
Proof.
  intros Hok Hnd Hfree.
  apply (advances_foldl (hidden_single_step g)
    (λ vs st, NoDup vs
       ∧ ∀ v, v ∈ vs → ∀ j, j ∈ tiles g → value (tile_of st j) ≠ v));
    [|done|done].
  clear. intros v vs st c Hok [Hnd Hfree].
  apply NoDup_cons in Hnd as [Hv Hnd].
  destruct (hidden_single_step_advances g st c v Hok) as (st' & ch & E & Ha & Hk).
  { apply Hfree. left. }
  exists st', ch. split; [done|]. split; [done|]. split; [done|].
  intros v' Hv' j Hj. apply Hk; [|by (intros; apply Hfree; [right|]) | done].
  intros ->. done.
Qed.

Section hidden_single_proofs.

Variable enum : pyset → list string.
Hypothesis enum_good : enum_ok enum.

Lemma hidden_single_constrain_advances g (st : Board) :
  all_ok st →
  advances st (hidden_single_constrain enum g st).1
              (hidden_single_constrain enum g st).2.
Proof.
  intros Hok. unfold hidden_single_constrain.
  destruct (enum_good (leftovers_of g st)) as [Hnd Hin].
  destruct (hidden_single_loop_advances g (enum (leftovers_of g st)) st false)
    as (st' & ch & E & Ha); [done|done| |].
  - intros v Hv%Hin j Hj. by eapply leftovers_unassigned.
  - rewrite E. simpl. by rewrite orb_false_r.
Qed.

Lemma hidden_single_advances (b : Board) :
  all_ok b → advances b (hidden_single enum b).1 (hidden_single enum b).2.
Proof.
  intros Hok. unfold hidden_single.
  destruct (advances_foldl
    (λ '(b, changed) g,
       let '(b', ch) := hidden_single_constrain enum g b in
       (b', ch || changed))
    (λ _ _, True)) with (xs := groups) (st := b) (c := false)
    as (st' & ch & E & Ha); [|done|done|].
  - intros g gs st0 c Hok0 _.
    pose proof (hidden_single_constrain_advances g st0 Hok0) as Ha.
    destruct (hidden_single_constrain enum g st0) as [b' ch]. eauto.
  - rewrite E. simpl. by rewrite orb_false_r.
Qed.

End hidden_single_proofs.

(** ** [propagate] *)

Lemma board_ok_spec (b : Board) :
  board_ok b = true ↔ length b = 81 ∧ all_ok b.
Proof.
  unfold board_ok. rewrite andb_true_iff, bool_decide_eq_true.
  rewrite forallb_forall, Forall_forall.
  split; intros [H1 H2]; (split; [done|]); intros t Ht; apply H2;
    by apply list_elem_of_In.
Qed.

Lemma advances_weight (b b' : Board) c :
  advances b b' c →
  board_weight b' ≤ board_weight b
  ∧ (board_weight b' = board_weight b → b' = b ∧ c = false).
Proof.
  intros (_ & _ & Hw). destruct c.
  - split; [lia|]. intros He. lia.
  - subst b'. auto.
Qed.

Lemma size_digits : size digits = 9.
Proof. reflexivity. Qed.

Lemma tile_weight_bound t : tile_ok t = true → tile_weight t ≤ 10.
Proof.
  intros [Hc _]%tile_ok_spec. apply subseteq_size in Hc.
  rewrite size_digits in Hc. unfold tile_weight. case_bool_decide; lia.
Qed.

Lemma board_weight_bound (b : Board) :
  all_ok b → board_weight b ≤ 10 * length b.
Proof.
  induction 1 as [|t b Ht Hb IH]; [done|].
  apply tile_weight_bound in Ht.
  change (tile_weight t + board_weight b ≤ 10 * S (length b)). lia.
Qed.

Section propagate_proofs.

Variable enum : pyset → list string.
Hypothesis enum_good : enum_ok enum.

Lemma propagate_round_advances (b : Board) :
  all_ok b →
  ∃ c, advances b (propagate_round enum b).1 c
       ∧ ((propagate_round enum b).2 = true → c = true).
Proof.
  intros Hok. unfold propagate_round.
  pose proof (naked_single_advances b Hok) as H1.
  destruct (naked_single b) as [b1 c1]. simpl in H1.
  destruct (is_solved b1 || negb (is_consistent b1)).
  { exists c1. split; [done|]. simpl. done. }
  pose proof (hidden_single_advances enum enum_good b1 (proj1 (proj2 H1))) as H2.
  destruct (hidden_single enum b1) as [b2 c2]. simpl in H2.
  exists (c2 || c1). split.
  - destruct (is_solved b2 || negb (is_consistent b2)); simpl;
      by eapply advances_trans.
  - destruct (is_solved b2 || negb (is_consistent b2)); simpl; done.
Qed.

Lemma propagate_round_progress (b : Board) :
  all_ok b →
  Forall2 narrows b (propagate_round enum b).1
  ∧ all_ok (propagate_round enum b).1
  ∧ board_weight (propagate_round enum b).1 ≤ board_weight b
  ∧ ((propagate_round enum b).2 = true →
       board_weight (propagate_round enum b).1 < board_weight b)
  ∧ (board_weight (propagate_round enum b).1 = board_weight b →
       (propagate_round enum b).1 = b ∧ (propagate_round enum b).2 = false).
Proof.
  intros Hok. destruct (propagate_round_advances b Hok) as (c & Ha & Hc).
  pose proof (advances_weight _ _ _ Ha) as [Hle Heq].
  destruct Ha as (Hn & Hok' & Hw).
  split; [done|]. split; [done|]. split; [done|]. split.
  - intros Hr. rewrite (Hc Hr) in Hw. done.
  - intros He. destruct (Heq He) as [Hb ->]. split; [done|].
    destruct (propagate_round enum b).2; [|done]. by specialize (Hc eq_refl).
Qed.

Lemma propagate_loop_terminates (fuel : nat) : ∀ b : Board,
  all_ok b → board_weight b < fuel →
  ∃ b', propagate_loop enum fuel b = Some b'
        ∧ Forall2 narrows b b' ∧ all_ok b'.
Proof.
  induction fuel as [|fuel IH]; intros b Hok Hlt; [lia|].
  destruct (propagate_round_progress b Hok) as (Hn & Hok' & Hle & Hstrict & _).
  simpl. destruct (propagate_round enum b) as [b1 again]. simpl in *.
  destruct again.
  - specialize (Hstrict eq_refl).
    destruct (IH b1 Hok' ltac:(lia)) as (b' & E & Hn' & Hok'').
    exists b'. split; [done|]. split; [|done].
    by eapply Forall2_narrows_trans.
  - exists b1. done.
Qed.

Lemma propagate_narrows (b : Board) :
  all_ok b →
  ∃ b', propagate enum b = Some b' ∧ Forall2 narrows b b' ∧ all_ok b'.
Proof. intros Hok. apply propagate_loop_terminates; [done|lia]. Qed.

End propagate_proofs.

(** *** C6 *)

(** C6: [propagate] terminates.  A pass of its loop never raises the
    count of candidates and UNKNOWN tiles left on the board; a pass after
    which the loop goes round again lowers it; a pass that leaves the
    count as it was has left the board as it was and ends the loop.  The
    count is at most 810 on a board of 81 tiles, so the loop returns
    within any number of passes above the count. *)
Theorem C6_propagate_terminates (enum : pyset → list string) (b : Board) :
  enum_ok enum → board_ok b = true →
  (board_weight (propagate_round enum b).1 ≤ board_weight b
   ∧ ((propagate_round enum b).2 = true →
        board_weight (propagate_round enum b).1 < board_weight b)
   ∧ (board_weight (propagate_round enum b).1 = board_weight b →
        (propagate_round enum b).1 = b ∧ (propagate_round enum b).2 = false)
   ∧ board_ok (propagate_round enum b).1 = true)
  ∧ board_weight b ≤ 810
  ∧ (∀ fuel, board_weight b < fuel →
       ∃ b', propagate_loop enum fuel b = Some b')
  ∧ ∃ b', propagate enum b = Some b'.
Proof.
  intros Henum [Hlen Hok]%board_ok_spec.
  destruct (propagate_round_progress enum Henum b Hok)
    as (Hn & Hok' & Hle & Hstrict & Heq).
  split; [|split; [|split]].
  - split; [done|]. split; [done|]. split; [done|].
    apply board_ok_spec. split; [|done].
    rewrite <- (Forall2_length _ _ _ Hn). done.
  - pose proof (board_weight_bound b Hok). lia.
  - intros fuel Hf.
    destruct (propagate_loop_terminates enum Henum fuel b Hok Hf) as (b' & E & _).
    eauto.
  - destruct (propagate_narrows enum Henum b Hok) as (b' & E & _). eauto.
Qed.

(** ** Inconsistency is kept by narrowing *)

Lemma forallb_false {A} (f : A → bool) (l : list A) :
  forallb f l = false ↔ ∃ x, x ∈ l ∧ f x = false.
Proof.
  induction l as [|a l IH]; simpl.
  - split; [done|]. intros (x & Hx & _). by apply elem_of_nil in Hx.
  - rewrite andb_false_iff, IH. split.
    + intros [H | (x & Hx & Hf)]; [exists a; split; [left|done] |].
      exists x. split; [by right|done].
    + intros (x & [->|Hx]%elem_of_cons & Hf); [by left|]. right. eauto.
Qed.

Lemma narrows_tile_of (b b' : Board) (i : nat) :
  Forall2 narrows b b' → narrows (tile_of b i) (tile_of b' i).
Proof.
  intros Hn. destruct (b !! i) as [t|] eqn:E.
  - destruct (Forall2_lookup_l _ _ _ _ _ Hn E) as (t' & E' & Ht).
    by rewrite (tile_of_lookup _ _ _ E), (tile_of_lookup _ _ _ E').
  - apply lookup_ge_None_1 in E.
    rewrite (tile_of_ge b) by done.
    rewrite (tile_of_ge b') by (rewrite <- (Forall2_length _ _ _ Hn); done).
    apply narrows_refl.
Qed.



Lemma advances_narrows (b b' : Board) c : advances b b' c → Forall2 narrows b b'.
Proof. by intros (H & _). Qed.

Lemma solve_unfold enum recompute fuel (b : Board) :
  solve enum recompute (S fuel) b =
    match propagate enum b with
    | None => OutOfFuel
    | Some b1 =>
        if is_solved b1 then Return true b1
        else if negb (is_consistent b1) then Return false b1
        else
          match (scan b1).1 with
          | None => Raise "AttributeError"
          | Some best_tile =>
              guess_loop recompute (solve enum recompute fuel) (as_list b1)
                best_tile (enum (candidates (tile_of b1 best_tile))) b1
          end
    end.
Proof. reflexivity. Qed.

(** *** C9 *)


(** ** The scan for the tile to guess on *)

Lemma row_major_seq : row_major = seq 0 81.
Proof. reflexivity. Qed.

Lemma scan_step_eq (b : Board) o m (i : nat) :
  scan_step b (o, m) i =
    if bool_decide (value (tile_of b i) = UNKNOWN)
       && bool_decide (cands_at b i < m)
    then (Some i, cands_at b i) else (o, m).
Proof. reflexivity. Qed.

(** The scan keeps the least count seen so far among UNKNOWN tiles, and
    the first position where that count was seen. *)
Lemma scan_foldl (b : Board) (l : list nat) : ∀ o m,
  (∀ j, j ∈ l → value (tile_of b j) = UNKNOWN →
     (foldl (scan_step b) (o, m) l).2 ≤ cands_at b j)
  ∧ (foldl (scan_step b) (o, m) l = (o, m)
       ∧ (∀ j, j ∈ l → value (tile_of b j) = UNKNOWN → m ≤ cands_at b j)
     ∨ ∃ k i, l !! k = Some i
         ∧ foldl (scan_step b) (o, m) l = (Some i, cands_at b i)
         ∧ value (tile_of b i) = UNKNOWN ∧ cands_at b i < m
         ∧ ∀ k' j, k' < k → l !! k' = Some j →
             value (tile_of b j) = UNKNOWN → cands_at b i < cands_at b j).
Proof.
  induction l as [|x l IH]; intros o m.
  - split; [intros j Hj; by apply elem_of_nil in Hj|]. left.
    split; [done|]. intros j Hj; by apply elem_of_nil in Hj.
  - change (foldl (scan_step b) (o, m) (x :: l))
      with (foldl (scan_step b) (scan_step b (o, m) x) l).
    rewrite scan_step_eq.
    destruct (bool_decide (value (tile_of b x) = UNKNOWN)
              && bool_decide (cands_at b x < m)) eqn:Etake.
    + apply andb_true_iff in Etake as [Hu%bool_decide_eq_true Hlt%bool_decide_eq_true].
      destruct (IH (Some x) (cands_at b x)) as [Hmin Hsel].
      assert (Hle : (foldl (scan_step b) (Some x, cands_at b x) l).2
                    ≤ cands_at b x).
      { destruct Hsel as [[-> _] | (k & i & _ & -> & _ & Hi & _)]; simpl; lia. }
      split.
      * intros j [->|Hj]%elem_of_cons Huj; [done | by apply Hmin].
      * right. destruct Hsel as [[E Hall] | (k & i & Hk & E & Hui & Hi & Hfirst)].
        -- exists 0, x. split; [done|]. split; [done|]. split; [done|].
           split; [done|]. intros k' j Hk'. lia.
        -- exists (S k), i. split; [done|]. split; [done|]. split; [done|].
           split; [lia|]. intros [|k'] j Hk' Hj Huj.
           ++ simpl in Hj. injection Hj as <-. done.
           ++ apply (Hfirst k' j); [lia|done|done].
    + assert (Hskip : value (tile_of b x) = UNKNOWN → m ≤ cands_at b x).
      { intros Hu. apply andb_false_iff in Etake as [H|H];
          apply bool_decide_eq_false in H; [done|lia]. }
      destruct (IH o m) as [Hmin Hsel].
      assert (Hle : (foldl (scan_step b) (o, m) l).2 ≤ m).
      { destruct Hsel as [[-> _] | (k & i & _ & -> & _ & Hi & _)]; simpl; lia. }
      split.
      * intros j [->|Hj]%elem_of_cons Huj; [|by apply Hmin].
        specialize (Hskip Huj). lia.
      * destruct Hsel as [[E Hall] | (k & i & Hk & E & Hui & Hi & Hfirst)].
        -- left. split; [done|].
           intros j [->|Hj]%elem_of_cons Huj; [by apply Hskip | by apply Hall].
        -- right. exists (S k), i. split; [done|]. split; [done|].
           split; [done|]. split; [done|]. intros [|k'] j Hk' Hj Huj.
           ++ simpl in Hj. injection Hj as <-. specialize (Hskip Huj). lia.
           ++ apply (Hfirst k' j); [lia|done|done].
Qed.

Lemma cands_at_bound (b : Board) (i : nat) : all_ok b → cands_at b i ≤ 9.
Proof.
  intros Hok. pose proof (tile_of_ok b i Hok) as [Hc _]%tile_ok_spec.
  apply subseteq_size in Hc. by rewrite size_digits in Hc.
Qed.

Lemma scan_selects (b : Board) (u : nat) :
  all_ok b → u < 81 → value (tile_of b u) = UNKNOWN →
  ∃ i, scan b = (Some i, cands_at b i) ∧ i < 81
       ∧ value (tile_of b i) = UNKNOWN
       ∧ ∀ j, j < 81 → value (tile_of b j) = UNKNOWN →
           cands_at b i ≤ cands_at b j ∧ (j < i → cands_at b i < cands_at b j).
Proof.
  intros Hok Hu Huv. unfold scan. rewrite row_major_seq.
  assert (Hel : ∀ j, j ∈ seq 0 81 ↔ j < 81).
  { intros j. rewrite elem_of_seq. lia. }
  assert (Hlk : ∀ k i, seq 0 81 !! k = Some i ↔ i = k ∧ k < 81).
  { intros k i. rewrite lookup_seq. done. }
  generalize dependent (seq 0 81). intros l Hel Hlk.
  destruct (scan_foldl b l None 10) as [Hmin Hsel].
  destruct Hsel as [[E Hall] | (k & i & Hk & E & Hui & Hi & Hfirst)].
  - exfalso. specialize (Hall u (proj2 (Hel u) Hu) Huv).
    pose proof (cands_at_bound b u Hok). lia.
  - apply Hlk in Hk as [-> Hk].
    exists k. split; [done|]. split; [done|]. split; [done|].
    intros j Hj Huj. split.
    + specialize (Hmin j (proj2 (Hel j) Hj) Huj). by rewrite E in Hmin.
    + intros Hjk. apply (Hfirst j j); [done| |done].
      apply Hlk. split; [done|lia].
Qed.

Lemma groups_in_range :
  Forall (λ g, Forall (λ i, i < 81) (tiles g)) groups.
Proof. by vm_compute; repeat constructor. Qed.

Lemma unsolved_has_unknown (b : Board) :
  is_solved b = false →
  ∃ u, u < 81 ∧ value (tile_of b u) = UNKNOWN.
Proof.
  unfold is_solved. intros (g & Hg & Hf)%forallb_false.
  unfold is_complete in Hf. apply forallb_false in Hf as (t & Ht & Hv).
  apply members_elem in Ht as (i & Hi & ->).
  apply negb_false_iff, bool_decide_eq_true in Hv.
  exists i. split; [|done].
  pose proof groups_in_range as Hr. rewrite Forall_forall in Hr.
  specialize (Hr g Hg). rewrite Forall_forall in Hr. by apply Hr.
Qed.

(** ** Snapshots *)

Section snapshots.

Variable recompute : list string → nat → pyset.

Lemma length_set_tiles (b : Board) s : length (set_tiles recompute b s) = length b.
Proof. unfold set_tiles. apply length_imap. Qed.

Lemma set_tiles_same_length (b b' : Board) s :
  length b = length b' → set_tiles recompute b s = set_tiles recompute b' s.
Proof.
  intros Hl. apply list_eq. intros i. unfold set_tiles.
  rewrite !list_lookup_imap.
  destruct (b !! i) as [t|] eqn:E, (b' !! i) as [t'|] eqn:E'; try done.
  - apply lookup_lt_Some in E. apply lookup_ge_None_1 in E'. lia.
  - apply lookup_lt_Some in E'. apply lookup_ge_None_1 in E. lia.
Qed.

Lemma value_restore_tile s (i : nat) v : value (restore_tile recompute s i v) = v.
Proof. unfold restore_tile. by case_bool_decide. Qed.

Lemma as_list_set_tiles (b : Board) s :
  length b = length s → as_list (set_tiles recompute b s) = s.
Proof.
  intros Hl. apply list_eq. intros i. unfold as_list, set_tiles.
  rewrite list_lookup_fmap, list_lookup_imap.
  destruct (b !! i) as [t|] eqn:E; simpl.
  - rewrite value_restore_tile. symmetry.
    apply list_lookup_lookup_total_lt. apply lookup_lt_Some in E. lia.
  - symmetry. apply lookup_ge_None_2. apply lookup_ge_None_1 in E. lia.
Qed.

Lemma restore_tile_ok s (i : nat) v :
  recompute_ok recompute → symbol_ok v →
  tile_ok (restore_tile recompute s i v) = true.
Proof.
  intros Hr Hv. unfold restore_tile. apply tile_ok_spec.
  case_bool_decide as Hu; simpl.
  - split; [apply Hr | done].
  - destruct Hv as [|Hv]; [done|]. split; [|done].
    by apply singleton_subseteq_l.
Qed.

Lemma set_tiles_ok (b : Board) s :
  recompute_ok recompute → length b = length s → Forall symbol_ok s →
  all_ok (set_tiles recompute b s).
Proof.
  intros Hr Hl Hs. apply Forall_lookup. intros i t. unfold set_tiles.
  rewrite list_lookup_imap. destruct (b !! i) as [t0|] eqn:E; [|done].
  intros [= <-]. apply restore_tile_ok; [done|].
  apply lookup_lt_Some in E.
  destruct (lookup_lt_is_Some_2 s i ltac:(lia)) as [v Hv].
  rewrite (list_lookup_total_correct _ _ _ Hv).
  by eapply Forall_lookup_1.
Qed.

End snapshots.

Lemma as_list_symbols (b : Board) : all_ok b → Forall symbol_ok (as_list b).
Proof.
  intros Hok. unfold as_list. apply Forall_fmap.
  eapply Forall_impl; [exact Hok|]. intros t Ht. by apply tile_ok_value.
Qed.

Lemma length_as_list (b : Board) : length (as_list b) = length b.
Proof. unfold as_list. apply length_fmap. Qed.

(** ** [solve] *)

Lemma guess_loop_nil recompute solve' save (best : nat) (b : Board) :
  guess_loop recompute solve' save best [] b = Return false b.
Proof. reflexivity. Qed.

Lemma guess_loop_cons recompute solve' save (best : nat) c cands (b : Board) :
  guess_loop recompute solve' save best (c :: cands) b =
    match solve' (<[best := set_value (tile_of b best) c]> b) with
    | Return true b2 => Return true b2
    | Return false b2 =>
        guess_loop recompute solve' save best cands
          (set_tiles recompute b2 save)
    | other => other
    end.
Proof. reflexivity. Qed.

Section solve_proofs.

Variable enum : pyset → list string.
Variable recompute : list string → nat → pyset.
Hypothesis enum_good : enum_ok enum.
Hypothesis recompute_good : recompute_ok recompute.

Lemma guess_loop_safe solve' save (best : nat) :
  (∀ b : Board, board_ok b = true → safe (solve' b)) →
  length save = 81 → Forall symbol_ok save →
  ∀ cands (b : Board), Forall (λ c, c ∈ digits) cands → board_ok b = true →
    safe (guess_loop recompute solve' save best cands b).
Proof.
  intros Hrec Hlen Hsave cands.
  induction cands as [|c cands IH]; intros b Hc Hb.
  - rewrite guess_loop_nil. done.
  - rewrite guess_loop_cons. apply Forall_cons in Hc as [Hc Hcs].
    assert (Hb1 : board_ok (<[best := set_value (tile_of b best) c]> b) = true).
    { apply board_ok_spec in Hb as [Hl Hok]. apply board_ok_spec.
      split; [by rewrite length_insert|]. apply Forall_insert; [done|].
      apply tile_ok_spec; simpl. split; [by apply singleton_subseteq_l|done]. }
    specialize (Hrec _ Hb1).
    destruct (solve' _) as [[] b2 | e |]; simpl in Hrec; try done.
    apply IH; [done|]. apply board_ok_spec in Hrec as [Hl2 _].
    apply board_ok_spec. split.
    + by rewrite length_set_tiles.
    + apply set_tiles_ok; [done|lia|done].
Qed.

Lemma propagate_board_ok (b : Board) :
  board_ok b = true →
  ∃ b1, propagate enum b = Some b1 ∧ board_ok b1 = true
        ∧ Forall2 narrows b b1.
Proof.
  intros [Hl Hok]%board_ok_spec.
  destruct (propagate_narrows enum enum_good b Hok) as (b1 & E & Hn & Hok1).
  exists b1. split; [done|]. split; [|done]. apply board_ok_spec.
  split; [|done]. by rewrite <- (Forall2_length _ _ _ Hn).
Qed.

Lemma solve_safe (fuel : nat) : ∀ b : Board,
  board_ok b = true → safe (solve enum recompute fuel b).
Proof.
  induction fuel as [|fuel IH]; intros b Hb; [exact I|].
  rewrite solve_unfold.
  destruct (propagate_board_ok b Hb) as (b1 & -> & Hb1 & _).
  destruct (is_solved b1) eqn:Es; [exact Hb1|].
  destruct (is_consistent b1); cbn [negb]; [|exact Hb1].
  pose proof Hb1 as [Hl1 Hok1]%board_ok_spec.
  destruct (unsolved_has_unknown b1 Es) as (u & Hu & Huv).
  destruct (scan_selects b1 u Hok1 Hu Huv) as (i & -> & Hi & Hiv & _).
  cbn [fst]. apply guess_loop_safe; [exact IH | | | | exact Hb1].
  - by rewrite length_as_list.
  - by apply as_list_symbols.
  - apply Forall_forall. intros c Hc.
    apply (proj2 (enum_good _)) in Hc.
    pose proof (tile_of_ok b1 i Hok1) as [Hsub _]%tile_ok_spec. by apply Hsub.
Qed.

End solve_proofs.

(** *** C7 *)

(** C7: when propagation stalls on a consistent, unsolved board, the
    scan of [solve] selects an UNKNOWN tile with the fewest candidates,
    and among those the first in row-major order: every UNKNOWN tile has
    at least as many candidates, every UNKNOWN tile before it has more,
    and no other tile is like that.  It is the tile [solve] runs its
    guess loop on. *)
Theorem C7_fewest_candidates_first (enum : pyset → list string)
    (recompute : list string → nat → pyset) (fuel : nat) (b b1 : Board) :
  enum_ok enum → board_ok b = true →
  propagate enum b = Some b1 → is_solved b1 = false →
  is_consistent b1 = true →
  ∃ best_tile,
    scan b1 = (Some best_tile, size (candidates (tile_of b1 best_tile)))
    ∧ best_tile < 81 ∧ value (tile_of b1 best_tile) = UNKNOWN
    ∧ (∀ j, j < 81 → value (tile_of b1 j) = UNKNOWN →
         size (candidates (tile_of b1 best_tile))
           ≤ size (candidates (tile_of b1 j))
         ∧ (j < best_tile →
              size (candidates (tile_of b1 best_tile))
                < size (candidates (tile_of b1 j))))
    ∧ (∀ i, i < 81 → value (tile_of b1 i) = UNKNOWN →
         (∀ j, j < 81 → value (tile_of b1 j) = UNKNOWN →
            size (candidates (tile_of b1 i)) ≤ size (candidates (tile_of b1 j))
            ∧ (j < i → size (candidates (tile_of b1 i))
                        < size (candidates (tile_of b1 j)))) →
         i = best_tile)
    ∧ solve enum recompute (S fuel) b =
        guess_loop recompute (solve enum recompute fuel) (as_list b1)
          best_tile (enum (candidates (tile_of b1 best_tile))) b1.
Proof.
  intros Henum Hb E Hs Hc.
  destruct (propagate_board_ok enum Henum b Hb) as (b1' & E' & Hb1 & _).
  rewrite E in E'. injection E' as <-.
  apply board_ok_spec in Hb1 as [_ Hok1].
  destruct (unsolved_has_unknown b1 Hs) as (u & Hu & Huv).
  destruct (scan_selects b1 u Hok1 Hu Huv) as (i & Hscan & Hi & Hiv & Hmin).
  exists i. split; [done|]. split; [done|]. split; [done|]. split; [done|].
  split.
  - intros k Hk Hkv Hk_min.
    destruct (Hmin k Hk Hkv) as [Hik Hik'].
    destruct (Hk_min i Hi Hiv) as [Hki Hki'].
    destruct (decide (k < i)) as [Hlt|Hge].
    + specialize (Hik' Hlt). lia.
    + destruct (decide (i < k)) as [Hlt|Hge']; [|lia].
      specialize (Hki' Hlt). lia.
  - rewrite solve_unfold, E, Hs, Hc, Hscan. done.
Qed.

(** *** C10 *)

(** C10: when [solve] reaches its guessing phase, the board being
    unsolved, some tile is UNKNOWN and the scan finds a tile, so
    [best_tile] is not [None]; and no call of [solve] on a well-formed
    board raises. *)
Theorem C10_best_tile_is_found (enum : pyset → list string)
    (recompute : list string → nat → pyset) (b : Board) :
  enum_ok enum → recompute_ok recompute → board_ok b = true →
  (∀ b1, propagate enum b = Some b1 → is_solved b1 = false →
     is_consistent b1 = true →
     (∃ u, u < 81 ∧ value (tile_of b1 u) = UNKNOWN)
     ∧ ∃ best_tile, (scan b1).1 = Some best_tile ∧ best_tile < 81
         ∧ value (tile_of b1 best_tile) = UNKNOWN)
  ∧ ∀ fuel e, solve enum recompute fuel b ≠ Raise e.
Proof.
  intros Henum Hrc Hb. split.
  - intros b1 E Hs Hc.
    destruct (propagate_board_ok enum Henum b Hb) as (b1' & E' & Hb1 & _).
    rewrite E in E'. injection E' as <-.
    apply board_ok_spec in Hb1 as [_ Hok1].
    destruct (unsolved_has_unknown b1 Hs) as (u & Hu & Huv).
    split; [eauto|].
    destruct (scan_selects b1 u Hok1 Hu Huv) as (i & Hscan & Hi & Hiv & _).
    exists i. rewrite Hscan. done.
  - intros fuel e He.
    pose proof (solve_safe enum recompute Henum Hrc fuel b Hb) as Hsafe.
    by rewrite He in Hsafe.
Qed.

(** ** The number of tiles never changes *)

Lemma foldl_length {A} (step : Board * bool → A → Board * bool) :
  (∀ st c x, length (step (st, c) x).1 = length st) →
  ∀ xs st c, length (foldl step (st, c) xs).1 = length st.
Proof.
  intros Hstep xs. induction xs as [|x xs IH]; intros st c; [done|].
  simpl. specialize (Hstep st c x).
  destruct (step (st, c) x) as [st1 c1]. rewrite IH. done.
Qed.

Lemma naked_single_constrain_length g (st : Board) :
  length (naked_single_constrain g st).1 = length st.
Proof.
  unfold naked_single_constrain. apply foldl_length.
  intros st0 c i. unfold naked_single_step.
  case_bool_decide; [|done].
  destruct (eliminate _ _) as [t ch]. simpl. apply length_insert.
Qed.

Lemma naked_single_length (b : Board) : length (naked_single b).1 = length b.
Proof.
  unfold naked_single. apply foldl_length. intros st c g.
  pose proof (naked_single_constrain_length g st) as H.
  by destruct (naked_single_constrain g st).
Qed.

Lemma hidden_single_constrain_length enum g (st : Board) :
  length (hidden_single_constrain enum g st).1 = length st.
Proof.
  unfold hidden_single_constrain. apply foldl_length.
  intros st0 c v. unfold hidden_single_step.
  destruct (filter _ _) as [|i [|j l]]; try done. simpl. apply length_insert.
Qed.

Lemma hidden_single_length enum (b : Board) :
  length (hidden_single enum b).1 = length b.
Proof.
  unfold hidden_single. apply foldl_length. intros st c g.
  pose proof (hidden_single_constrain_length enum g st) as H.
  by destruct (hidden_single_constrain enum g st).
Qed.

Lemma propagate_round_length enum (b : Board) :
  length (propagate_round enum b).1 = length b.
Proof.
  unfold propagate_round.
  pose proof (naked_single_length b) as H1.
  destruct (naked_single b) as [b1 c1]. simpl in H1.
  destruct (is_solved b1 || negb (is_consistent b1)); [done|].
  pose proof (hidden_single_length enum b1) as H2.
  destruct (hidden_single enum b1) as [b2 c2]. simpl in H2.
  destruct (is_solved b2 || negb (is_consistent b2)); simpl; congruence.
Qed.

Lemma propagate_loop_length enum (fuel : nat) : ∀ b b' : Board,
  propagate_loop enum fuel b = Some b' → length b' = length b.
Proof.
  induction fuel as [|fuel IH]; intros b b'; [done|]. simpl.
  pose proof (propagate_round_length enum b) as H.
  destruct (propagate_round enum b) as [b1 again]. simpl in H.
  destruct again.
  - intros E%IH. congruence.
  - intros [= <-]. done.
Qed.

Lemma guess_loop_length recompute solve' save (best : nat) :
  (∀ (b : Board) r b', solve' b = Return r b' → length b' = length b) →
  ∀ cands (b : Board) r b',
    guess_loop recompute solve' save best cands b = Return r b' →
    length b' = length b.
Proof.
  intros Hrec cands. induction cands as [|c cands IH]; intros b r b'.
  - rewrite guess_loop_nil. intros [= _ <-]. done.
  - rewrite guess_loop_cons.
    destruct (solve' _) as [[] b2 | e |] eqn:E; try done.
    + intros [= _ <-]. apply Hrec in E. by rewrite length_insert in E.
    + intros E2%IH. apply Hrec in E.
      rewrite length_insert in E. rewrite length_set_tiles in E2. congruence.
Qed.

Lemma solve_length enum recompute (fuel : nat) : ∀ (b : Board) r b',
  solve enum recompute fuel b = Return r b' → length b' = length b.
Proof.
  induction fuel as [|fuel IH]; intros b r b'; [done|].
  rewrite solve_unfold.
  destruct (propagate enum b) as [b1|] eqn:E; [|done].
  apply propagate_loop_length in E.
  destruct (is_solved b1); [intros [= _ <-]; done|].
  destruct (is_consistent b1); cbn [negb]; [|intros [= _ <-]; done].
  destruct (scan b1).1 as [i|]; [|done].
  intros E2. apply guess_loop_length in E2; [congruence|exact IH].
Qed.

(** *** C8 *)

Lemma as_list_insert (b : Board) (i : nat) t :
  as_list (<[i := t]> b) = <[i := value t]> (as_list b).
Proof. unfold as_list. apply list_fmap_insert. Qed.

Lemma try_each_cons solve' restored t trials (b : Board) :
  try_each solve' restored (t :: trials) b =
    match solve' t with
    | Return true b2 => Return true b2
    | Return false _ => try_each solve' restored trials restored
    | other => other
    end.
Proof. reflexivity. Qed.

Lemma tried_on_trials recompute (b1 : Board) (best : nat) c cands :
  imap (tried_on recompute b1 best) (c :: cands)
  = <[best := set_value (tile_of b1 best) c]> b1
    :: ((λ c', <[best := set_value
                   (tile_of (set_tiles recompute b1 (as_list b1)) best) c']>
                 (set_tiles recompute b1 (as_list b1))) <$> cands).
Proof.
  rewrite imap_cons. f_equal. rewrite <- imap_const.
  apply imap_ext. intros k c' _. reflexivity.
Qed.

Lemma guess_loop_try_each recompute solve' (b1 : Board) (best : nat) :
  (∀ (t : Board) r b', solve' t = Return r b' → length b' = length t) →
  ∀ cands (b : Board), length b = length b1 →
    guess_loop recompute solve' (as_list b1) best cands b
    = try_each solve' (set_tiles recompute b1 (as_list b1))
        (match cands with
         | [] => []
         | c :: cands' =>
             <[best := set_value (tile_of b best) c]> b
             :: ((λ c', <[best := set_value
                            (tile_of (set_tiles recompute b1 (as_list b1)) best)
                            c']>
                          (set_tiles recompute b1 (as_list b1))) <$> cands')
         end) b.
Proof.
  intros Hlen cands. induction cands as [|c cands IH]; intros b Hl; [done|].
  rewrite guess_loop_cons, try_each_cons.
  destruct (solve' _) as [[] b2 | e |] eqn:E; try done.
  apply Hlen in E. rewrite length_insert in E.
  rewrite (set_tiles_same_length recompute b2 b1) by congruence.
  rewrite IH by apply length_set_tiles.
  destruct cands as [|c' cands]; done.
Qed.

(** C8: the guess loop of [solve] tries each candidate on a board that
    is fixed before any is tried: the first on the board as propagation
    left it, each later one on the board restored from the snapshot
    taken before guessing.  The values of a trial board are those of the
    snapshot with the candidate at the chosen tile; what a failed call
    leaves on the board is not passed on, whatever the calls return. *)
Theorem C8_restore_before_next_guess (enum : pyset → list string)
    (recompute : list string → nat → pyset) (solve' : Board → outcome)
    (fuel best_tile : nat) (cands : list string) (b b1 : Board) :
  (∀ (t : Board) r b', solve' t = Return r b' → length b' = length t) →
  propagate enum b = Some b1 → is_solved b1 = false →
  is_consistent b1 = true → (scan b1).1 = Some best_tile →
  guess_loop recompute solve' (as_list b1) best_tile cands b1
  = try_each solve' (set_tiles recompute b1 (as_list b1))
      (imap (tried_on recompute b1 best_tile) cands) b1
  ∧ solve enum recompute (S fuel) b
    = try_each (solve enum recompute fuel)
        (set_tiles recompute b1 (as_list b1))
        (imap (tried_on recompute b1 best_tile)
           (enum (candidates (tile_of b1 best_tile)))) b1
  ∧ as_list (set_tiles recompute b1 (as_list b1)) = as_list b1
  ∧ ∀ k c, as_list (tried_on recompute b1 best_tile k c)
           = <[best_tile := c]> (as_list b1).
Proof.
  intros Hlen E Hs Hc Hscan.
  assert (Hgen : ∀ f, (∀ (t : Board) r b', f t = Return r b' →
                         length b' = length t) →
            ∀ cs, guess_loop recompute f (as_list b1) best_tile cs b1
                  = try_each f (set_tiles recompute b1 (as_list b1))
                      (imap (tried_on recompute b1 best_tile) cs) b1).
  { intros f Hf cs. rewrite (guess_loop_try_each recompute f b1 best_tile Hf)
      by done.
    destruct cs as [|c cs]; [done|]. by rewrite tried_on_trials. }
  assert (Hsave : as_list (set_tiles recompute b1 (as_list b1)) = as_list b1).
  { apply as_list_set_tiles. by rewrite length_as_list. }
  split; [by apply Hgen|]. split; [|split; [done|]].
  - rewrite solve_unfold, E, Hs, Hc, Hscan. cbn [negb]. apply Hgen.
    apply solve_length.
  - intros k c. unfold tried_on. rewrite as_list_insert.
    unfold set_value. cbn [value]. destruct k; [done|]. by rewrite Hsave.
Qed.

(** ** What hidden single assigns *)

Lemma filter_unique {A} (P : A → Prop) `{∀ x, Decision (P x)}
    (l : list A) (p : nat) x :
  l !! p = Some x → (∀ q y, l !! q = Some y → (P y ↔ q = p)) →
  filter P l = [x].
Proof.
  revert p. induction l as [|a l IH]; intros p Hp Hu; [done|].
  destruct p as [|p].
  - injection Hp as ->. rewrite filter_cons_True by (by apply (Hu 0 x)).
    f_equal. destruct (filter P l) as [|y k] eqn:Ef; [done|]. exfalso.
    assert (Hy : y ∈ filter P l) by (rewrite Ef; left).
    apply list_elem_of_filter in Hy as [Py Hy].
    apply list_elem_of_lookup_1 in Hy as [q Hq].
    by apply (Hu (S q) y) in Py.
  - rewrite filter_cons_False.
    2:{ intros Pa. by apply (Hu 0 a) in Pa. }
    apply (IH p); [done|]. intros q y Hq. rewrite (Hu (S q) y Hq). lia.
Qed.

Lemma hidden_single_step_fires g (st : Board) c v (p i : nat) :
  tiles g !! p = Some i →
  (∀ q j, tiles g !! q = Some j → (v ∈ candidates (tile_of st j) ↔ q = p)) →
  hidden_single_step g (st, c) v
  = (<[i := set_value (tile_of st i) v]> st, true).
Proof.
  intros Hp Hu. unfold hidden_single_step.
  rewrite (filter_unique (λ i, could_be (tile_of st i) v = true) (tiles g) p i);
    [done|done|].
  intros q j Hq. rewrite could_be_true. by apply Hu.
Qed.

Lemma foldl_cons_eq {A B} (f : A → B → A) a x l :
  foldl f a (x :: l) = foldl f (f a x) l.
Proof. reflexivity. Qed.

Lemma hidden_single_step_flag g (st : Board) v :
  (hidden_single_step g (st, true) v).2 = true.
Proof. unfold hidden_single_step. by destruct (filter _ _) as [|? [|? ?]]. Qed.

Lemma hidden_single_loop_flag g vs : ∀ st : Board,
  (foldl (hidden_single_step g) (st, true) vs).2 = true.
Proof.
  induction vs as [|v vs IH]; intros st; [done|]. rewrite foldl_cons_eq.
  pose proof (hidden_single_step_flag g st v) as H.
  destruct (hidden_single_step g (st, true) v) as [st1 c1]. simpl in H.
  subst c1. apply IH.
Qed.

Lemma hidden_single_step_keeps g (st : Board) c v v' (i : nat) :
  tile_of st i = mkTile v {[ v ]} → v' ≠ v →
  tile_of (hidden_single_step g (st, c) v').1 i = mkTile v {[ v ]}.
Proof.
  intros Hi Hne. unfold hidden_single_step.
  destruct (filter _ _) as [|j [|k l]] eqn:Eb; try done. simpl.
  assert (Hj : j ∈ filter (λ i, could_be (tile_of st i) v' = true) (tiles g))
    by (rewrite Eb; left).
  apply list_elem_of_filter in Hj as [Hc%could_be_true _].
  rewrite tile_of_insert_ne; [done|]. intros ->.
  rewrite Hi in Hc. simpl in Hc. by apply elem_of_singleton in Hc.
Qed.

Lemma hidden_single_loop_keeps g vs v (i : nat) : ∀ (st : Board) c,
  tile_of st i = mkTile v {[ v ]} → v ∉ vs →
  tile_of (foldl (hidden_single_step g) (st, c) vs).1 i = mkTile v {[ v ]}.
Proof.
  induction vs as [|v' vs IH]; intros st c Hi Hv; [done|].
  rewrite foldl_cons_eq. apply not_elem_of_cons in Hv as [Hne Hv].
  pose proof (hidden_single_step_keeps g st c v v' i Hi ltac:(congruence)) as H.
  destruct (hidden_single_step g (st, c) v') as [st1 c1]. by apply IH.
Qed.

Lemma set_of_str_UNKNOWN : set_of_str UNKNOWN = {[ UNKNOWN ]}.
Proof. apply (right_id_L ∅ (∪)). Qed.

Lemma leftovers_ok g st d :
  (∀ t, t ∈ members g st → tile_ok t = true) →
  d ∈ leftovers_of g st
  ↔ d ∈ CHOICES ∧ ∀ t, t ∈ members g st → value t ≠ d.
Proof.
  intros Hok. rewrite elem_of_leftovers, digits_elem. split.
  - intros [Hd Hts]. split; [done|]. intros t Ht He. apply (Hts t Ht).
    rewrite He, set_of_str_digit by (by apply digits_elem).
    by apply elem_of_singleton.
  - intros [Hd Hts]. split; [done|]. intros t Ht Hin.
    destruct (tile_ok_value t (Hok t Ht)) as [Hu|Hv].
    + rewrite Hu, set_of_str_UNKNOWN in Hin. apply elem_of_singleton in Hin.
      apply UNKNOWN_not_digit. rewrite <- Hin. by apply digits_elem.
    + rewrite set_of_str_digit in Hin by done.
      apply elem_of_singleton in Hin. by apply (Hts t Ht).
Qed.

Lemma unique_check (l : list nat) (f : nat → bool) (p : nat) :
  forallb (λ qj, bool_decide (f qj.2 = bool_decide (qj.1 = p))) (imap pair l)
  = true →
  ∀ q j, l !! q = Some j → (f j = true ↔ q = p).
Proof.
  rewrite forallb_forall. intros Hall q j Hq.
  assert (Hin : In (q, j) (imap pair l)).
  { apply list_elem_of_In, list_elem_of_lookup. exists q.
    by rewrite list_lookup_imap, Hq. }
  apply Hall, bool_decide_eq_true in Hin. simpl in Hin. rewrite Hin.
  apply bool_decide_eq_true.
Qed.

Lemma hidden_single_step_shape g (st : Board) c v :
  all_ok st → (∀ j, j ∈ tiles g → value (tile_of st j) ≠ v) →
  (hidden_single_step g (st, c) v).1 = st
  ∨ ∃ i, i ∈ tiles g ∧ i < length st ∧ value (tile_of st i) = UNKNOWN
         ∧ v ∈ candidates (tile_of st i) ∧ v ∈ digits
         ∧ (hidden_single_step g (st, c) v).1 = <[i := mkTile v {[ v ]}]> st.
Proof.
  intros Hok Hfree. unfold hidden_single_step.
  destruct (filter _ (tiles g)) as [|i [|k l]] eqn:Eb; try (by left).
  right. exists i.
  assert (Hin : i ∈ filter (λ i, could_be (tile_of st i) v = true) (tiles g))
    by (rewrite Eb; left).
  destruct (hidden_bucket_tile g st v i Hok Hfree Hin)
    as (Hig & Hi & Hu & Hc & Hd).
  done.
Qed.

Lemma hidden_single_loop_shape g vs : ∀ (st : Board) c,
  all_ok st → NoDup vs →
  (∀ v, v ∈ vs → ∀ j, j ∈ tiles g → value (tile_of st j) ≠ v) →
  ∀ j,
    tile_of (foldl (hidden_single_step g) (st, c) vs).1 j = tile_of st j
    ∨ (j ∈ tiles g ∧ value (tile_of st j) = UNKNOWN
       ∧ ∃ v, v ∈ vs ∧ v ∈ candidates (tile_of st j)
              ∧ tile_of (foldl (hidden_single_step g) (st, c) vs).1 j
                = mkTile v {[ v ]}).
Proof.
  induction vs as [|v vs IH]; intros st c Hok Hnd Hfree j; [by left|].
  apply NoDup_cons in Hnd as [Hv Hnd]. rewrite foldl_cons_eq.
  destruct (hidden_single_step_advances g st c v Hok (Hfree v ltac:(left)))
    as (st1 & ch & E & Ha & Hk).
  pose proof (hidden_single_step_shape g st c v Hok (Hfree v ltac:(left)))
    as Hshape.
  rewrite E in Hshape |- *. cbn [fst] in Hshape.
  assert (Hfree1 : ∀ v', v' ∈ vs → ∀ k, k ∈ tiles g →
                     value (tile_of st1 k) ≠ v').
  { intros v' Hv' k Hk'. apply Hk; [by intros ->| |done].
    intros k' Hk''. apply Hfree; [by right|done]. }
  specialize (IH st1 (ch || c) (proj1 (proj2 Ha)) Hnd Hfree1 j).
  destruct Hshape as [-> | (i & Hig & Hi & Hu & Hc & Hd & ->)].
  - destruct IH as [IH | (Hj & Huj & v' & Hv' & Hc' & IH)]; [by left|].
    right. split; [done|]. split; [done|]. exists v'.
    split; [by right|done].
  - destruct (decide (i = j)) as [<-|Hne].
    + rewrite tile_of_insert_eq in IH by done.
      destruct IH as [IH | (_ & Huj & _)].
      * right. split; [done|]. split; [done|]. exists v.
        split; [left|done].
      * exfalso. cbn [value] in Huj. by apply (digit_not_UNKNOWN v).
    + rewrite tile_of_insert_ne in IH by done.
      destruct IH as [IH | (Hj & Huj & v' & Hv' & Hc' & IH)]; [by left|].
      right. split; [done|]. split; [done|]. exists v'.
      split; [by right|done].
Qed.

(** *** C5 *)

Lemma hidden_single_assigns_at_turn enum g (st : list Tile)
    (pre post : list string) v (p i : nat) :
  enum_ok enum →
  enum (leftovers_of g st) = (pre ++ v :: post)%list →
  tiles g !! p = Some i →
  (∀ q j, tiles g !! q = Some j →
     (v ∈ candidates (tile_of (foldl (hidden_single_step g) (st, false) pre).1 j)
      ↔ q = p)) →
  (hidden_single_step g (foldl (hidden_single_step g) (st, false) pre) v).1
    = <[i := set_value
              (tile_of (foldl (hidden_single_step g) (st, false) pre).1 i) v]>
        (foldl (hidden_single_step g) (st, false) pre).1
  ∧ tile_of (hidden_single_constrain enum g st).1 i = mkTile v {[ v ]}
  ∧ (hidden_single_constrain enum g st).2 = true.
Proof.
  intros Henum Hsplit Hp Hu.
  destruct (Henum (leftovers_of g st)) as [Hnd Hin].
  unfold hidden_single_constrain. rewrite Hsplit, foldl_app.
  rewrite foldl_cons_eq.
  destruct (foldl (hidden_single_step g) (st, false) pre) as [s c0] eqn:Epre.
  cbn [fst] in Hu |- *.
  rewrite (hidden_single_step_fires g s c0 v p i Hp Hu). cbn [fst].
  split; [done|].
  assert (Hi : i < length s).
  { destruct (decide (i < length s)) as [|Hge]; [done|]. exfalso.
    pose proof (proj2 (Hu p i Hp) eq_refl) as Hc.
    rewrite tile_of_ge in Hc by lia. by apply not_elem_of_empty in Hc. }
  split.
  - apply hidden_single_loop_keeps.
    + by rewrite tile_of_insert_eq.
    + rewrite Hsplit in Hnd. apply NoDup_app in Hnd as (_ & _ & Hnd).
      by apply NoDup_cons in Hnd as [Hv _].
  - apply hidden_single_loop_flag.
Qed.

(** A digit with one candidate tile at the call ends on that tile unless
    an earlier leftover took the tile. *)
Lemma hidden_single_assigns_from_call enum g (st : list Tile) d (p i : nat) :
  enum_ok enum → all_ok st →
  d ∈ leftovers_of g st → tiles g !! p = Some i →
  (∀ q j, tiles g !! q = Some j →
     (d ∈ candidates (tile_of st j) ↔ q = p)) →
  (hidden_single_constrain enum g st).2 = true
  ∧ ∃ v, v ∈ leftovers_of g st ∧ v ∈ candidates (tile_of st i)
         ∧ tile_of (hidden_single_constrain enum g st).1 i = mkTile v {[ v ]}
         ∧ (v = d
            ∨ ∃ pre post, enum (leftovers_of g st) = (pre ++ d :: post)%list
                          ∧ v ∈ pre).
Proof.
  intros Henum Hok Hd Hp Hu.
  destruct (Henum (leftovers_of g st)) as [Hnd Hin].
  pose proof (proj2 (Hin d) Hd) as Hd'.
  apply list_elem_of_split in Hd' as (pre & post & Hsplit).
  assert (Hfree : ∀ v, v ∈ enum (leftovers_of g st) →
            ∀ j, j ∈ tiles g → value (tile_of st j) ≠ v).
  { intros v Hv%Hin j Hj. by eapply leftovers_unassigned. }
  rewrite Hsplit in Hnd, Hfree.
  apply NoDup_app in Hnd as (Hnd_pre & Hdisj & Hnd_post).
  assert (Hfree_pre : ∀ v, v ∈ pre →
            ∀ j, j ∈ tiles g → value (tile_of st j) ≠ v).
  { intros v Hv. apply Hfree, elem_of_app. by left. }
  destruct (hidden_single_loop_advances g pre st false Hok Hnd_pre Hfree_pre)
    as (s & ch & Epre & Ha).
  pose proof (hidden_single_loop_shape g pre st false Hok Hnd_pre Hfree_pre i)
    as Hshape.
  rewrite Epre in Hshape. cbn [fst] in Hshape.
  pose proof (advances_narrows _ _ _ Ha) as Hn.
  destruct Hshape as [Hsame | (Hig & Hui & v & Hv & Hcv & Htile)].
  - assert (Hturn : ∀ q j, tiles g !! q = Some j →
       (d ∈ candidates
              (tile_of (foldl (hidden_single_step g) (st, false) pre).1 j)
        ↔ q = p)).
    { rewrite Epre. cbn [fst]. intros q j Hq. split.
      - intros Hc. apply (Hu q j Hq).
        by apply (narrows_tile_of st s j Hn).
      - intros ->. assert (j = i) by congruence. subst j.
        rewrite Hsame. by apply (Hu p i Hp). }
    destruct (hidden_single_assigns_at_turn enum g st pre post d p i
                Henum Hsplit Hp Hturn) as (_ & Hfin & Hflag).
    split; [done|]. exists d. split; [done|].
    split; [by apply (Hu p i Hp)|]. split; [done|by left].
  - unfold hidden_single_constrain. rewrite Hsplit, foldl_app, Epre.
    assert (Hch : ch = true).
    { destruct Ha as (_ & _ & Hw). destruct ch; [done|]. exfalso.
      subst s. rewrite Htile in Hui. cbn [value] in Hui.
      apply UNKNOWN_not_digit. rewrite <- Hui.
      pose proof (tile_of_ok st i Hok) as [Hsub _]%tile_ok_spec.
      by apply Hsub. }
    subst ch. cbn [orb]. split; [apply hidden_single_loop_flag|].
    exists v. split; [apply Hin; rewrite Hsplit; apply elem_of_app; by left|].
    split; [done|]. split.
    + apply hidden_single_loop_keeps; [done|]. intros Hvin.
      by apply (Hdisj v Hv).
    + right. by exists pre, post.
Qed.

Lemma enum_singleton enum x : enum_ok enum → enum {[ x ]} = [x].
Proof.
  intros Henum. destruct (Henum {[ x ]}) as [Hnd Hin].
  destruct (enum {[ x ]}) as [|a l] eqn:E.
  - exfalso. assert (Hx : x ∈ @nil string).
    { apply Hin. by apply elem_of_singleton. }
    by apply elem_of_nil in Hx.
  - assert (a = x).
    { pose proof (proj1 (Hin a) ltac:(left)) as Ha.
      clear -Ha. set_solver. }
    subst a. f_equal. destruct l as [|y l]; [done|]. exfalso.
    assert (y = x).
    { pose proof (proj1 (Hin y) ltac:(right; left)) as Hy.
      clear -Hy. set_solver. }
    subst y. apply NoDup_cons in Hnd as [Hn _]. apply Hn. left.
Qed.

Lemma row_with_gap_leftovers : leftovers_of (row_group 0) row_with_gap = {[ "6" ]}.
Proof. apply (bool_decide_unpack _). vm_compute. exact I. Qed.

(** C5, with the candidates read when the loop reaches the digit:
    [Group.hidden_single_constrain] runs through the leftovers, the
    digits 1 to 9 that no member tile holds, in the order the set is
    enumerated.  A leftover digit that is among the
    candidates of exactly one member tile when the loop reaches it is
    assigned to that tile by [set_value] (the tile keeps it to the end
    of the call) and the call returns true.  A leftover digit with
    exactly one candidate tile at the call is assigned to that tile
    unless the loop gave the tile an earlier leftover first; the tile
    then keeps that one, and the call returns true either way.  In the
    row [1 2 3 4 5 _ 7 8 9] the digit 6 is assigned to the open cell. *)
Theorem C5_hidden_single_assigns (enum : pyset → list string) :
  enum_ok enum →
  (∀ (g : Group) (st : list Tile) (pre post : list string) (v : string)
     (p i : nat),
     (∀ t, t ∈ members g st → tile_ok t = true) →
     enum (leftovers_of g st) = (pre ++ v :: post)%list →
     tiles g !! p = Some i →
     (∀ q j, tiles g !! q = Some j →
        (v ∈ candidates
               (tile_of (foldl (hidden_single_step g) (st, false) pre).1 j)
         ↔ q = p)) →
     (∀ d, d ∈ leftovers_of g st
           ↔ d ∈ CHOICES ∧ ∀ t, t ∈ members g st → value t ≠ d)
     ∧ v ∈ leftovers_of g st
     ∧ (hidden_single_step g
          (foldl (hidden_single_step g) (st, false) pre) v).1
       = <[i := set_value
                 (tile_of (foldl (hidden_single_step g) (st, false) pre).1 i)
                 v]>
           (foldl (hidden_single_step g) (st, false) pre).1
     ∧ tile_of (hidden_single_constrain enum g st).1 i = mkTile v {[ v ]}
     ∧ (hidden_single_constrain enum g st).2 = true)
  ∧ (∀ (g : Group) (st : list Tile) (d : string) (p i : nat),
       Forall (λ t, tile_ok t = true) st →
       d ∈ leftovers_of g st → tiles g !! p = Some i →
       (∀ q j, tiles g !! q = Some j →
          (d ∈ candidates (tile_of st j) ↔ q = p)) →
       (hidden_single_constrain enum g st).2 = true
       ∧ ∃ v, v ∈ leftovers_of g st ∧ v ∈ candidates (tile_of st i)
              ∧ tile_of (hidden_single_constrain enum g st).1 i
                = mkTile v {[ v ]}
              ∧ (v = d
                 ∨ ∃ pre post,
                     enum (leftovers_of g st) = (pre ++ d :: post)%list
                     ∧ v ∈ pre))
  ∧ (tile_of (hidden_single_constrain enum (row_group 0) row_with_gap).1 5
     = mkTile "6" {[ "6" ]}
     ∧ (hidden_single_constrain enum (row_group 0) row_with_gap).2 = true).
Proof.
  intros Henum. split; [|split].
  - intros g st pre post v p i Hok Hsplit Hp Hu.
    destruct (Henum (leftovers_of g st)) as [Hnd Hin].
    split; [intros d; by apply leftovers_ok|].
    split; [apply Hin; rewrite Hsplit; apply elem_of_app; right; left|].
    by apply (hidden_single_assigns_at_turn enum g st pre post v p i).
  - intros g st d p i Hok Hd Hp Hu.
    by apply (hidden_single_assigns_from_call enum g st d p i).
  - assert (Hsplit : enum (leftovers_of (row_group 0) row_with_gap)
                     = ([] ++ "6" :: [])%list).
    { rewrite row_with_gap_leftovers. by apply enum_singleton. }
    assert (Hu : ∀ q j, tiles (row_group 0) !! q = Some j →
       ("6" ∈ candidates
          (tile_of (foldl (hidden_single_step (row_group 0))
                      (row_with_gap, false) []).1 j)
        ↔ q = 5)).
    { intros q j Hq. rewrite <- could_be_true. revert q j Hq.
      apply (unique_check (tiles (row_group 0))
               (λ j, could_be (tile_of row_with_gap j) "6") 5).
      vm_compute; reflexivity. }
    destruct (hidden_single_assigns_at_turn enum (row_group 0) row_with_gap
                [] [] "6" 5 5 Henum Hsplit eq_refl Hu) as (_ & H1 & H2).
    done.
Qed.

(** ** Complete boards *)

Lemma naked_single_constrain_complete g (st : Board) :
  is_complete g st = true → naked_single_constrain g st = (st, false).
Proof.
  unfold is_complete, members, naked_single_constrain.
  generalize (list_to_set (filter (λ v, v ≠ UNKNOWN)
                (value <$> (tile_of st <$> tiles g))) : pyset) as R.
  intros R. generalize false as c.
  induction (tiles g) as [|i l IH]; intros c Hall; [done|].
  rewrite fmap_cons in Hall. cbn [forallb] in Hall.
  apply andb_true_iff in Hall as [Hi Hl].
  apply negb_true_iff, bool_decide_eq_false in Hi.
  rewrite foldl_cons_eq. unfold naked_single_step at 2.
  rewrite bool_decide_eq_false_2 by done. by apply IH.
Qed.

Lemma naked_single_complete (b : Board) :
  is_solved b = true → naked_single b = (b, false).
Proof.
  unfold is_solved, naked_single. generalize false as c.
  induction groups as [|g gs IH]; intros c Hall; [done|].
  cbn [forallb] in Hall. apply andb_true_iff in Hall as [Hg Hgs].
  rewrite foldl_cons_eq, (naked_single_constrain_complete g b Hg).
  by apply IH.
Qed.

Lemma propagate_complete enum (b : Board) :
  is_solved b = true → propagate enum b = Some b.
Proof.
  intros Hs. unfold propagate. cbn [propagate_loop]. unfold propagate_round.
  rewrite (naked_single_complete b Hs), Hs. done.
Qed.

Lemma solve_complete enum recompute (fuel : nat) (b : Board) :
  is_solved b = true → solve enum recompute (S fuel) b = Return true b.
Proof.
  intros Hs. by rewrite solve_unfold, (propagate_complete enum b Hs), Hs.
Qed.

(** *** C1 *)

(** C1, at inputs where the code departs from it: [solve] returns true
    on a complete grid that holds a digit twice in a column, and leaves
    it as it is; and on a puzzle with one solution, on which propagation
    stalls with two candidates or more in every UNKNOWN tile, it returns
    true with a board that is complete and not consistent.  [solve]
    tests [is_solved] and returns before it tests [is_consistent]. *)
Theorem C1_solve_true_board_inconsistent (enum : pyset → list string)
    (recompute : list string → nat → pyset) (fuel : nat) :
  (solve enum recompute (S fuel) swapped_grid = Return true swapped_grid
   ∧ is_solved swapped_grid = true ∧ is_consistent swapped_grid = false)
  ∧ (is_solved stalled_board = false ∧ is_consistent stalled_board = true
     ∧ (scan stalled_board).2 = 2
     ∧ ∃ b', solve elements recompute_all 81 stalled_puzzle = Return true b'
             ∧ is_solved b' = true ∧ is_consistent b' = false).
Proof.
  split.
  - assert (Hs : is_solved swapped_grid = true) by (vm_compute; reflexivity).
    split; [by apply solve_complete|]. split; [done|].
    vm_compute; reflexivity.
  - split; [vm_compute; reflexivity|]. split; [vm_compute; reflexivity|].
    split; [vm_compute; reflexivity|].
    assert (H : match solve elements recompute_all 81 stalled_puzzle with
                | Return r b' => r && is_solved b' && negb (is_consistent b')
                | _ => false
                end = true) by (vm_compute; reflexivity).
    destruct (solve elements recompute_all 81 stalled_puzzle)
      as [r b' | |]; try discriminate H.
    apply andb_true_iff in H as [[-> H1]%andb_true_iff H2%negb_true_iff].
    eauto.
Qed.

(** *** C2 *)

(** C2, at an input where the code departs from it: on a complete grid
    with two cells holding 5 in the last row the board is not consistent
    after propagation, and [solve] returns true, not false. *)
Theorem C2_solve_true_on_two_fives (enum : pyset → list string)
    (recompute : list string → nat → pyset) (fuel : nat) :
  value (tile_of two_fives 74) = "5" ∧ value (tile_of two_fives 80) = "5"
  ∧ propagate enum two_fives = Some two_fives
  ∧ is_consistent two_fives = false
  ∧ solve enum recompute (S fuel) two_fives = Return true two_fives.
Proof.
  assert (Hs : is_solved two_fives = true) by (vm_compute; reflexivity).
  split; [reflexivity|]. split; [reflexivity|].
  split; [by apply propagate_complete|].
  split; [vm_compute; reflexivity|]. by apply solve_complete.
Qed.

(** What [solve] does by design when propagation ends on a board that is
    neither solved nor consistent: it returns false with that board. *)
Lemma solve_prunes enum recompute (fuel : nat) (b b1 : Board) :
  propagate enum b = Some b1 → is_solved b1 = false →
  is_consistent b1 = false →
  solve enum recompute (S fuel) b = Return false b1.
Proof. intros E Hs Hc. by rewrite solve_unfold, E, Hs, Hc. Qed.

(** *** C4 *)

Lemma duplicates_loop_empty g st ts reports :
  duplicates_loop g st ts reports ∅ = reports.
Proof.
  induction ts as [|t ts IH]; [done|]. cbn [duplicates_loop].
  case_bool_decide; [done|].
  rewrite bool_decide_eq_false_2 by apply not_elem_of_empty. done.
Qed.

(** C4, where the code departs from it: [Group.duplicates] returns the
    empty list for every group, also for a row that holds 5 twice; its
    set [used] is never added to. *)
Theorem C4_duplicates_reports_nothing :
  (∀ g st, duplicates g st = [])
  ∧ has_dup (value <$> members (row_group 8) two_fives)
  ∧ duplicates (row_group 8) two_fives = [].
Proof.
  assert (H : ∀ g st, duplicates g st = []).
  { intros g st. unfold duplicates. apply duplicates_loop_empty. }
  split; [done|]. split; [|apply H].
  exists 2, 8, "5". repeat split; [lia|]. unfold UNKNOWN. discriminate.
Qed.

(** ** The claims at concrete inputs *)

#[local] Instance outcome_eq_dec : EqDecision outcome.
Proof. solve_decision. Defined.

(** Decide a closed statement by evaluation. *)
Ltac by_evaluation := apply (bool_decide_unpack _); vm_compute; exact I.

Lemma enum_ok_elements : enum_ok elements.
Proof.
  intros X. split; [apply NoDup_elements|]. intros x. apply elem_of_elements.
Qed.

Lemma recompute_ok_all : recompute_ok recompute_all.
Proof. intros s i. done. Qed.

Lemma board_ok_members g (b : Board) t :
  board_ok b = true → t ∈ members g b → tile_ok t = true.
Proof.
  intros [_ Hok]%board_ok_spec (i & _ & ->)%members_elem. by apply tile_of_ok.
Qed.

Lemma C3_witness :
  (∀ t, t ∈ members (row_group 0) easy_puzzle →
        candidates t ⊆ list_to_set CHOICES)
  ∧ (sdk_group.is_consistent (row_group 0) easy_puzzle = false ↔
     (∃ t, t ∈ members (row_group 0) easy_puzzle ∧ candidates t = ∅)
     ∨ (∃ p q t1 t2, p ≠ q ∧ members (row_group 0) easy_puzzle !! p = Some t1
          ∧ members (row_group 0) easy_puzzle !! q = Some t2
          ∧ value t1 ≠ UNKNOWN ∧ value t1 = value t2)
     ∨ (∃ d, d ∈ CHOICES
          ∧ ∀ t, t ∈ members (row_group 0) easy_puzzle → d ∉ candidates t))
  ∧ (sdk_group.is_consistent (row_group 0) easy_puzzle = true ↔
     (∀ t, t ∈ members (row_group 0) easy_puzzle → candidates t ≠ ∅)
     ∧ (∀ p q t1 t2, p ≠ q → members (row_group 0) easy_puzzle !! p = Some t1
          → members (row_group 0) easy_puzzle !! q = Some t2
          → value t1 ≠ UNKNOWN → value t1 ≠ value t2)
     ∧ (∀ d, d ∈ CHOICES →
          ∃ t, t ∈ members (row_group 0) easy_puzzle ∧ d ∈ candidates t)).
Proof.
  assert (H : ∀ t, t ∈ members (row_group 0) easy_puzzle →
                   candidates t ⊆ list_to_set CHOICES).
  { intros t Ht. apply tile_ok_spec, (board_ok_members (row_group 0) easy_puzzle).
    - vm_compute; reflexivity.
    - exact Ht. }
  split; [exact H|].
  exact (C3_group_is_consistent_iff (row_group 0) easy_puzzle H).
Defined.

(** C5 with the candidates read at the call fails on [crowded_row]: 1
    and 2 are leftovers with the first tile as their only candidate
    tile, and one tile cannot be given both, in whatever order the
    leftovers are taken.  The tiles of the row are well formed and
    [Group.is_consistent] holds of it. *)
Lemma C5_counterexample :
  forallb tile_ok crowded_row = true
  ∧ sdk_group.is_consistent (row_group 0) crowded_row = true
  ∧ ¬ ∃ enum : pyset → list string,
        ∀ d p i, d ∈ leftovers_of (row_group 0) crowded_row →
          tiles (row_group 0) !! p = Some i →
          (∀ q j, tiles (row_group 0) !! q = Some j →
             (d ∈ candidates (tile_of crowded_row j) ↔ q = p)) →
          tile_of (hidden_single_constrain enum (row_group 0) crowded_row).1 i
          = mkTile d {[ d ]}.
Proof.
  split; [vm_compute; reflexivity|]. split; [vm_compute; reflexivity|].
  intros [enum H].
  assert (Hl : ∀ d, d = "1" ∨ d = "2" →
            d ∈ leftovers_of (row_group 0) crowded_row).
  { intros d [-> | ->]; apply (bool_decide_unpack _); vm_compute; exact I. }
  assert (Hu : ∀ d, d = "1" ∨ d = "2" →
            ∀ q j, tiles (row_group 0) !! q = Some j →
              (d ∈ candidates (tile_of crowded_row j) ↔ q = 0)).
  { intros d Hd q j Hq. rewrite <- could_be_true. revert q j Hq.
    apply (unique_check (tiles (row_group 0))
             (λ j, could_be (tile_of crowded_row j) d) 0).
    destruct Hd as [-> | ->]; vm_compute; reflexivity. }
  pose proof (H "1" 0 0 (Hl "1" ltac:(by left)) eq_refl
                (Hu "1" ltac:(by left))) as H1.
  pose proof (H "2" 0 0 (Hl "2" ltac:(by right)) eq_refl
                (Hu "2" ltac:(by right))) as H2.
  rewrite H1 in H2. discriminate H2.
Qed.

Lemma C5_witness :
  enum_ok elements
  ∧ (∀ t, t ∈ members (row_group 0) staged_row → tile_ok t = true)
  ∧ elements (leftovers_of (row_group 0) staged_row)
    = (["3"] ++ "1" :: ["2"])%list
  ∧ tiles (row_group 0) !! 1 = Some 1
  ∧ candidates (tile_of staged_row 0) = {[ "1"; "3" ]}
  ∧ (foldl (hidden_single_step (row_group 0)) (staged_row, false) ["3"]).1
    = <[0 := mkTile "3" {[ "3" ]}]> staged_row
  ∧ (∀ q j, tiles (row_group 0) !! q = Some j →
       ("1" ∈ candidates
          (tile_of (foldl (hidden_single_step (row_group 0))
                      (staged_row, false) ["3"]).1 j)
        ↔ q = 1))
  ∧ "1" ∈ leftovers_of (row_group 0) staged_row
  ∧ tile_of (hidden_single_constrain elements (row_group 0) staged_row).1 1
    = mkTile "1" {[ "1" ]}
  ∧ (hidden_single_constrain elements (row_group 0) staged_row).2 = true.
Proof.
  assert (H1 : ∀ t, t ∈ members (row_group 0) staged_row → tile_ok t = true).
  { intros t (i & _ & ->)%members_elem. apply tile_of_ok.
    apply Forall_forall. intros x Hx%list_elem_of_In. revert x Hx.
    apply forallb_forall. vm_compute; reflexivity. }
  assert (H2 : elements (leftovers_of (row_group 0) staged_row)
               = (["3"] ++ "1" :: ["2"])%list) by (vm_compute; reflexivity).
  assert (H3 : tiles (row_group 0) !! 1 = Some 1) by reflexivity.
  assert (H4 : ∀ q j, tiles (row_group 0) !! q = Some j →
     ("1" ∈ candidates
        (tile_of (foldl (hidden_single_step (row_group 0))
                    (staged_row, false) ["3"]).1 j)
      ↔ q = 1)).
  { intros q j Hq. rewrite <- could_be_true. revert q j Hq.
    apply (unique_check (tiles (row_group 0))
             (λ j, could_be
                     (tile_of (foldl (hidden_single_step (row_group 0))
                                 (staged_row, false) ["3"]).1 j) "1") 1).
    vm_compute; reflexivity. }
  pose proof (C5_hidden_single_assigns elements enum_ok_elements)
    as (K & _ & _).
  destruct (K (row_group 0) staged_row ["3"] ["2"] "1" 1 1 H1 H2 H3 H4)
    as (_ & K2 & _ & K3 & K4).
  split; [exact enum_ok_elements|]. split; [exact H1|]. split; [exact H2|].
  split; [exact H3|]. split; [vm_compute; reflexivity|].
  split; [vm_compute; reflexivity|]. split; [exact H4|].
  split; [exact K2|]. split; [exact K3|exact K4].
Defined.

Lemma C6_witness :
  enum_ok elements ∧ board_ok easy_puzzle = true
  ∧ board_weight (propagate_round elements easy_puzzle).1
      ≤ board_weight easy_puzzle
  ∧ board_weight easy_puzzle ≤ 810
  ∧ (∀ fuel, board_weight easy_puzzle < fuel →
       ∃ b', propagate_loop elements fuel easy_puzzle = Some b')
  ∧ ∃ b', propagate elements easy_puzzle = Some b'.
Proof.
  assert (Hb : board_ok easy_puzzle = true) by (vm_compute; reflexivity).
  pose proof (C6_propagate_terminates elements easy_puzzle enum_ok_elements Hb)
    as ((K1 & _) & K2 & K3 & K4).
  split; [exact enum_ok_elements|]. split; [exact Hb|].
  split; [exact K1|]. split; [exact K2|]. split; [exact K3|exact K4].
Defined.

Lemma C7_witness :
  enum_ok elements ∧ board_ok stalled_puzzle = true
  ∧ propagate elements stalled_puzzle = Some stalled_board
  ∧ is_solved stalled_board = false ∧ is_consistent stalled_board = true
  ∧ scan stalled_board = (Some 16, 2)
  ∧ ∃ best_tile,
      scan stalled_board
      = (Some best_tile, size (candidates (tile_of stalled_board best_tile)))
      ∧ best_tile < 81 ∧ value (tile_of stalled_board best_tile) = UNKNOWN
      ∧ (∀ j, j < 81 → value (tile_of stalled_board j) = UNKNOWN →
           size (candidates (tile_of stalled_board best_tile))
             ≤ size (candidates (tile_of stalled_board j))
           ∧ (j < best_tile →
                size (candidates (tile_of stalled_board best_tile))
                  < size (candidates (tile_of stalled_board j))))
      ∧ (∀ i, i < 81 → value (tile_of stalled_board i) = UNKNOWN →
           (∀ j, j < 81 → value (tile_of stalled_board j) = UNKNOWN →
              size (candidates (tile_of stalled_board i))
                ≤ size (candidates (tile_of stalled_board j))
              ∧ (j < i → size (candidates (tile_of stalled_board i))
                          < size (candidates (tile_of stalled_board j)))) →
           i = best_tile)
      ∧ solve elements recompute_all 81 stalled_puzzle =
          guess_loop recompute_all (solve elements recompute_all 80)
            (as_list stalled_board) best_tile
            (elements (candidates (tile_of stalled_board best_tile)))
            stalled_board.
Proof.
  assert (H1 : board_ok stalled_puzzle = true) by by_evaluation.
  assert (H2 : propagate elements stalled_puzzle = Some stalled_board)
    by by_evaluation.
  assert (H3 : is_solved stalled_board = false) by by_evaluation.
  assert (H4 : is_consistent stalled_board = true) by by_evaluation.
  assert (H5 : scan stalled_board = (Some 16, 2)) by by_evaluation.
  split; [exact enum_ok_elements|]. split; [exact H1|]. split; [exact H2|].
  split; [exact H3|]. split; [exact H4|]. split; [exact H5|].
  exact (C7_fewest_candidates_first elements recompute_all 80 stalled_puzzle
           stalled_board enum_ok_elements H1 H2 H3 H4).
Defined.

Lemma C8_witness :
  (∀ (t : Board) r b',
     solve elements recompute_all 1 t = Return r b' → length b' = length t)
  ∧ propagate elements guess_puzzle = Some guess_board
  ∧ is_solved guess_board = false ∧ is_consistent guess_board = true
  ∧ (scan guess_board).1 = Some 7
  ∧ elements (candidates (tile_of guess_board 7)) = ["9"; "2"]
  ∧ (∃ b2, solve elements recompute_all 1
             (tried_on recompute_all guess_board 7 0 "9") = Return false b2
           ∧ as_list b2 ≠ <[7 := "9"]> (as_list guess_board))
  ∧ solve elements recompute_all 1 (tried_on recompute_all guess_board 7 1 "2")
    = Return true (board_of guess_solution)
  ∧ solve elements recompute_all 2 guess_puzzle
    = Return true (board_of guess_solution)
  ∧ guess_loop recompute_all (solve elements recompute_all 1)
      (as_list guess_board) 7 ["9"; "2"] guess_board
    = try_each (solve elements recompute_all 1)
        (set_tiles recompute_all guess_board (as_list guess_board))
        (imap (tried_on recompute_all guess_board 7) ["9"; "2"]) guess_board
  ∧ solve elements recompute_all 2 guess_puzzle
    = try_each (solve elements recompute_all 1)
        (set_tiles recompute_all guess_board (as_list guess_board))
        (imap (tried_on recompute_all guess_board 7)
           (elements (candidates (tile_of guess_board 7)))) guess_board
  ∧ as_list (set_tiles recompute_all guess_board (as_list guess_board))
    = as_list guess_board
  ∧ ∀ k c, as_list (tried_on recompute_all guess_board 7 k c)
           = <[7 := c]> (as_list guess_board).
Proof.
  assert (H0 : ∀ (t : Board) r b',
            solve elements recompute_all 1 t = Return r b' →
            length b' = length t) by apply solve_length.
  assert (H1 : propagate elements guess_puzzle = Some guess_board)
    by by_evaluation.
  assert (H2 : is_solved guess_board = false) by by_evaluation.
  assert (H3 : is_consistent guess_board = true) by by_evaluation.
  assert (H4 : (scan guess_board).1 = Some 7) by by_evaluation.
  assert (H5 : elements (candidates (tile_of guess_board 7)) = ["9"; "2"])
    by by_evaluation.
  assert (H6 : ∃ b2,
            solve elements recompute_all 1
              (tried_on recompute_all guess_board 7 0 "9") = Return false b2
            ∧ as_list b2 ≠ <[7 := "9"]> (as_list guess_board)).
  { assert (K : match solve elements recompute_all 1
                        (tried_on recompute_all guess_board 7 0 "9") with
                | Return false b2 =>
                    negb (bool_decide
                            (as_list b2 = <[7 := "9"]> (as_list guess_board)))
                | _ => false
                end = true) by by_evaluation.
    destruct (solve elements recompute_all 1
                (tried_on recompute_all guess_board 7 0 "9"))
      as [[] b2 | |]; try discriminate K.
    exists b2. split; [done|].
    by apply negb_true_iff, bool_decide_eq_false in K. }
  assert (H7 : solve elements recompute_all 1
                 (tried_on recompute_all guess_board 7 1 "2")
               = Return true (board_of guess_solution))
    by by_evaluation.
  assert (H8 : solve elements recompute_all 2 guess_puzzle
               = Return true (board_of guess_solution))
    by by_evaluation.
  split; [exact H0|]. split; [exact H1|]. split; [exact H2|].
  split; [exact H3|]. split; [exact H4|]. split; [exact H5|].
  split; [exact H6|]. split; [exact H7|]. split; [exact H8|].
  exact (C8_restore_before_next_guess elements recompute_all
           (solve elements recompute_all 1) 1 7 ["9"; "2"] guess_puzzle
           guess_board H0 H1 H2 H3 H4).
Defined.


Lemma C10_witness :
  enum_ok elements ∧ recompute_ok recompute_all
  ∧ board_ok stalled_puzzle = true
  ∧ (∀ b1, propagate elements stalled_puzzle = Some b1 →
       is_solved b1 = false → is_consistent b1 = true →
       (∃ u, u < 81 ∧ value (tile_of b1 u) = UNKNOWN)
       ∧ ∃ best_tile, (scan b1).1 = Some best_tile ∧ best_tile < 81
           ∧ value (tile_of b1 best_tile) = UNKNOWN)
  ∧ ∀ fuel e, solve elements recompute_all fuel stalled_puzzle ≠ Raise e.
Proof.
  assert (H : board_ok stalled_puzzle = true) by (vm_compute; reflexivity).
  split; [exact enum_ok_elements|]. split; [exact recompute_ok_all|].
  split; [exact H|].
  exact (C10_best_tile_is_found elements recompute_all stalled_puzzle
           enum_ok_elements recompute_ok_all H).
Defined.

(** * Further properties of the group and solver code *)

(** ** [Group.add] *)

Lemma add_all_from name (l : list nat) : ∀ pre : list nat,
  foldl (λ og tile, og ≫= λ g, add g tile) (Some (mkGroup name pre)) l
  = if bool_decide (l = [] ∨ length pre + length l ≤ 9)
    then Some (mkGroup name (pre ++ l)) else None.
Proof.
  induction l as [|x l IH]; intros pre.
  - cbn [foldl]. rewrite bool_decide_eq_true_2 by (by left).
    by rewrite app_nil_r.
  - rewrite foldl_cons_eq. cbn [mbind option_bind]. unfold add at 2.
    cbn [tiles title]. case_bool_decide as Hlt.
    + rewrite IH, length_app. cbn [length]. rewrite <- app_assoc.
      cbn [app]. destruct (decide (l = [])) as [->|Hne].
      * rewrite !bool_decide_eq_true_2; [done| right; simpl; lia | by left].
      * case_bool_decide as H1; case_bool_decide as H2; try done.
        -- exfalso. apply H2. right. simpl. destruct H1 as [|H1]; [done|lia].
        -- exfalso. apply H1. right. destruct H2 as [|H2]; [done|].
           simpl in H2. lia.
    + rewrite bool_decide_eq_false_2.
      2:{ intros [|H]; [done|]. simpl in H. lia. }
      clear. induction l as [|y l IH]; [done|]. by rewrite foldl_cons_eq.
Qed.

(** X1: adding tiles one by one to a new group gives the group of those
    tiles, in the order added, as long as there are at most nine; a tenth
    [add] fails its assertion (and so does everything after it). *)
Theorem X1_add_up_to_nine (name : string) (l : list nat) :
  foldl (λ og tile, og ≫= λ g, add g tile) (Some (new_group name)) l
  = if bool_decide (length l ≤ 9) then Some (mkGroup name l) else None.
Proof.
  unfold new_group. rewrite add_all_from. cbn [length app Nat.add].
  destruct l as [|x l].
  - by rewrite !bool_decide_eq_true_2 by (simpl; auto with lia).
  - case_bool_decide as H1; case_bool_decide as H2; try done.
    + exfalso. destruct H1 as [|H1]; [done|]. by apply H2.
    + exfalso. apply H1. by right.
Qed.

(** ** [solve] returns true only on complete boards *)

Lemma guess_loop_true recompute solve' save (best : nat) :
  (∀ (b : Board) b', solve' b = Return true b' → is_solved b' = true) →
  ∀ cands (b : Board) b',
    guess_loop recompute solve' save best cands b = Return true b' →
    is_solved b' = true.
Proof.
  intros Hrec cands. induction cands as [|c cands IH]; intros b b'.
  - rewrite guess_loop_nil. discriminate.
  - rewrite guess_loop_cons.
    destruct (solve' _) as [[] b2 | e |] eqn:E; try discriminate.
    + intros [= <-]. by eapply Hrec.
    + apply IH.
Qed.

Lemma solve_true_solved enum recompute (fuel : nat) : ∀ b b' : Board,
  solve enum recompute fuel b = Return true b' → is_solved b' = true.
Proof.
  induction fuel as [|fuel IH]; intros b b'; [discriminate|].
  rewrite solve_unfold. destruct (propagate enum b) as [b1|]; [|discriminate].
  destruct (is_solved b1) eqn:Es; [by intros [= <-]|].
  destruct (is_consistent b1); cbn [negb]; [|discriminate].
  destruct (scan b1).1 as [i|]; [|discriminate].
  apply guess_loop_true. exact IH.
Qed.

(** X2: whenever [solve] returns true, no tile of the board is left
    UNKNOWN: [is_solved()] holds on return. *)
Theorem X2_solve_true_is_solved (enum : pyset → list string)
    (recompute : list string → nat → pyset) (fuel : nat) (b b' : Board) :
  solve enum recompute fuel b = Return true b' → is_solved b' = true.
Proof. apply solve_true_solved. Qed.

Lemma X2_witness :
  solve elements recompute_all 5 easy_puzzle
  = Return true (board_of easy_solution)
  ∧ is_solved (board_of easy_solution) = true.
Proof.
  assert (H : solve elements recompute_all 5 easy_puzzle
              = Return true (board_of easy_solution))
    by (vm_compute; reflexivity).
  split; [exact H|].
  exact (X2_solve_true_is_solved elements recompute_all 5 easy_puzzle
           (board_of easy_solution) H).
Defined.

(** X3: on a board with no UNKNOWN tile, consistent or not, [solve]
    returns true at once and [propagate] and [solve] leave every tile as
    it was. *)
Theorem X3_complete_board_untouched (enum : pyset → list string)
    (recompute : list string → nat → pyset) (fuel : nat) (b : Board) :
  is_solved b = true →
  naked_single b = (b, false)
  ∧ propagate enum b = Some b
  ∧ solve enum recompute (S fuel) b = Return true b.
Proof.
  intros Hs. split; [by apply naked_single_complete|].
  split; [by apply propagate_complete | by apply solve_complete].
Qed.

Lemma X3_witness :
  is_solved two_fives = true
  ∧ naked_single two_fives = (two_fives, false)
  ∧ propagate elements two_fives = Some two_fives
  ∧ solve elements recompute_all 1 two_fives = Return true two_fives.
Proof.
  assert (H : is_solved two_fives = true) by (vm_compute; reflexivity).
  split; [exact H|].
  exact (X3_complete_board_untouched elements recompute_all 0 two_fives H).
Defined.

(** ** The tactics report a change exactly when they make one *)

Lemma advances_flag (b b' : Board) c :
  advances b b' c → (c = true ↔ b' ≠ b).
Proof.
  intros (_ & _ & Hw). destruct c.
  - split; [|done]. intros _ ->. lia.
  - split; [done|]. intros H. by destruct H.
Qed.

(** X4: on a well-formed board, [naked_single] and [hidden_single]
    return true if and only if they changed the board (their docstrings'
    "Returns True iff some change has been made"), and so do the group
    methods they call; what they change is only ever narrowed: no
    candidate is added, no assigned tile is touched, and the tiles stay
    well formed. *)
Theorem X4_changed_iff_change (enum : pyset → list string) (g : Group)
    (b : Board) :
  enum_ok enum → board_ok b = true →
  ((naked_single_constrain g b).2 = true ↔ (naked_single_constrain g b).1 ≠ b)
  ∧ ((hidden_single_constrain enum g b).2 = true
      ↔ (hidden_single_constrain enum g b).1 ≠ b)
  ∧ ((naked_single b).2 = true ↔ (naked_single b).1 ≠ b)
  ∧ ((hidden_single enum b).2 = true ↔ (hidden_single enum b).1 ≠ b)
  ∧ Forall2 narrows b (naked_single b).1
  ∧ Forall2 narrows b (hidden_single enum b).1
  ∧ board_ok (naked_single b).1 = true
  ∧ board_ok (hidden_single enum b).1 = true.
Proof.
  intros Henum [Hl Hok]%board_ok_spec.
  pose proof (naked_single_constrain_advances g b Hok) as H1.
  pose proof (hidden_single_constrain_advances enum Henum g b Hok) as H2.
  pose proof (naked_single_advances b Hok) as H3.
  pose proof (hidden_single_advances enum Henum b Hok) as H4.
  split; [by eapply advances_flag|]. split; [by eapply advances_flag|].
  split; [by eapply advances_flag|]. split; [by eapply advances_flag|].
  split; [by eapply advances_narrows|]. split; [by eapply advances_narrows|].
  split; apply board_ok_spec.
  - split; [by rewrite (advances_length _ _ _ H3) | apply H3].
  - split; [by rewrite (advances_length _ _ _ H4) | apply H4].
Qed.

Lemma X4_witness :
  enum_ok elements ∧ board_ok easy_puzzle = true
  ∧ ((naked_single easy_puzzle).2 = true
      ↔ (naked_single easy_puzzle).1 ≠ easy_puzzle)
  ∧ ((hidden_single elements easy_puzzle).2 = true
      ↔ (hidden_single elements easy_puzzle).1 ≠ easy_puzzle).
Proof.
  assert (H : board_ok easy_puzzle = true) by (vm_compute; reflexivity).
  pose proof (X4_changed_iff_change elements (row_group 0) easy_puzzle
                enum_ok_elements H) as (_ & _ & K3 & K4 & _).
  split; [exact enum_ok_elements|]. split; [exact H|].
  split; [exact K3|exact K4].
Defined.

(** ** Where [propagate] stops *)

Section propagate_result.

Variable enum : pyset → list string.
Hypothesis enum_good : enum_ok enum.

Lemma propagate_round_last (b b' : Board) :
  all_ok b → propagate_round enum b = (b', false) →
  is_solved b' = true ∨ is_consistent b' = false
  ∨ (naked_single b' = (b', false) ∧ hidden_single enum b' = (b', false)).
Proof.
  intros Hok. unfold propagate_round.
  pose proof (naked_single_advances b Hok) as H1.
  destruct (naked_single b) as [b1 c1] eqn:E1. cbn [fst snd] in H1.
  destruct (is_solved b1 || negb (is_consistent b1)) eqn:Estop1.
  { intros [= <-]. apply orb_true_iff in Estop1 as [H|H%negb_true_iff]; auto. }
  pose proof (hidden_single_advances enum enum_good b1 (proj1 (proj2 H1))) as H2.
  destruct (hidden_single enum b1) as [b2 c2] eqn:E2. cbn [fst snd] in H2.
  destruct (is_solved b2 || negb (is_consistent b2)) eqn:Estop2.
  { intros [= <-]. apply orb_true_iff in Estop2 as [H|H%negb_true_iff]; auto. }
  intros [= <- Hc]. apply orb_false_iff in Hc as [-> ->].
  destruct H1 as (_ & _ & ->). destruct H2 as (_ & _ & ->).
  right; right. by rewrite E1, E2.
Qed.

Lemma propagate_loop_result (fuel : nat) : ∀ b b' : Board,
  all_ok b → propagate_loop enum fuel b = Some b' →
  is_solved b' = true ∨ is_consistent b' = false
  ∨ (naked_single b' = (b', false) ∧ hidden_single enum b' = (b', false)).
Proof.
  induction fuel as [|fuel IH]; intros b b' Hok; [discriminate|].
  cbn [propagate_loop].
  destruct (propagate_round_progress enum enum_good b Hok) as (_ & Hok1 & _).
  destruct (propagate_round enum b) as [b1 again] eqn:E. cbn [fst] in Hok1.
  destruct again.
  - by apply IH.
  - intros [= <-]. by apply propagate_round_last in E.
Qed.

End propagate_result.

(** X5: on a well-formed board [propagate] returns, and the board it
    leaves is solved, or not consistent, or one on which neither
    [naked_single] nor [hidden_single] changes anything (its docstring's
    three ways to stop).  Along the way candidates are only removed and
    assigned tiles are left alone. *)
Theorem X5_propagate_stops_at (enum : pyset → list string) (b : Board) :
  enum_ok enum → board_ok b = true →
  ∃ b', propagate enum b = Some b'
        ∧ board_ok b' = true ∧ Forall2 narrows b b'
        ∧ (is_solved b' = true ∨ is_consistent b' = false
           ∨ (naked_single b' = (b', false)
              ∧ hidden_single enum b' = (b', false))).
Proof.
  intros Henum Hb.
  destruct (propagate_board_ok enum Henum b Hb) as (b' & E & Hb' & Hn).
  exists b'. split; [done|]. split; [done|]. split; [done|].
  apply board_ok_spec in Hb as [_ Hok].
  by eapply propagate_loop_result.
Qed.

Lemma X5_witness :
  enum_ok elements ∧ board_ok stalled_puzzle = true
  ∧ ∃ b', propagate elements stalled_puzzle = Some b'
        ∧ board_ok b' = true ∧ Forall2 narrows stalled_puzzle b'
        ∧ (is_solved b' = true ∨ is_consistent b' = false
           ∨ (naked_single b' = (b', false)
              ∧ hidden_single elements b' = (b', false))).
Proof.
  assert (H : board_ok stalled_puzzle = true) by (vm_compute; reflexivity).
  split; [exact enum_ok_elements|]. split; [exact H|].
  exact (X5_propagate_stops_at elements stalled_puzzle enum_ok_elements H).
Defined.

(** ** What [naked_single_constrain] does *)

Lemma narrowed_idemp R t : narrowed R (narrowed R t) = narrowed R t.
Proof.
  unfold narrowed. destruct (decide (value t = UNKNOWN)) as [Hu|Hu].
  - rewrite (bool_decide_eq_true_2 _ Hu). cbn [value candidates].
    rewrite bool_decide_eq_true_2 by done. f_equal. clear. set_solver.
  - rewrite (bool_decide_eq_false_2 _ Hu). by rewrite bool_decide_eq_false_2.
Qed.

Lemma narrowed_default R : narrowed R (mkTile UNKNOWN ∅) = mkTile UNKNOWN ∅.
Proof.
  unfold narrowed. cbn [value candidates].
  rewrite bool_decide_eq_true_2 by done. f_equal. clear. set_solver.
Qed.

Lemma value_narrowed R t : value (narrowed R t) = value t.
Proof. unfold narrowed. by case_bool_decide. Qed.

Lemma naked_single_step_store R (st : Board) c (i : nat) :
  (naked_single_step R (st, c) i).1 = <[i := narrowed R (tile_of st i)]> st.
Proof.
  unfold naked_single_step, narrowed, eliminate.
  destruct (decide (value (tile_of st i) = UNKNOWN)) as [Hu|Hu].
  - rewrite !(bool_decide_eq_true_2 _ Hu). cbn [fst]. by rewrite Hu.
  - rewrite !(bool_decide_eq_false_2 _ Hu). cbn [fst]. symmetry.
    apply list_insert_id'. intros Hi. by apply list_lookup_lookup_total_lt.
Qed.

Lemma tile_of_insert_narrowed R (st : Board) (i j : nat) :
  tile_of (<[i := narrowed R (tile_of st i)]> st) j
  = if bool_decide (j = i) then narrowed R (tile_of st j) else tile_of st j.
Proof.
  case_bool_decide as Hj.
  - subst j. destruct (decide (i < length st)) as [Hi|Hi].
    + by apply tile_of_insert_eq.
    + rewrite list_insert_ge by lia. rewrite (tile_of_ge st i) by lia.
      by rewrite narrowed_default.
  - by apply tile_of_insert_ne.
Qed.

Lemma naked_single_loop_tile R (l : list nat) : ∀ (st : Board) c (j : nat),
  tile_of (foldl (naked_single_step R) (st, c) l).1 j
  = if bool_decide (j ∈ l) then narrowed R (tile_of st j) else tile_of st j.
Proof.
  induction l as [|i l IH]; intros st c j.
  - cbn [foldl fst]. rewrite bool_decide_eq_false_2; [done|]. apply not_elem_of_nil.
  - rewrite foldl_cons_eq.
    pose proof (naked_single_step_store R st c i) as Hst.
    destruct (naked_single_step R (st, c) i) as [st1 c1]. cbn [fst] in Hst.
    rewrite IH, Hst, tile_of_insert_narrowed.
    destruct (decide (j = i)) as [->|Hne].
    + rewrite (bool_decide_eq_true_2 (i = i)) by done.
      rewrite (bool_decide_eq_true_2 (i ∈ i :: l)) by left.
      case_bool_decide; [apply narrowed_idemp|done].
    + rewrite (bool_decide_eq_false_2 (j = i)) by done.
      case_bool_decide as H1; case_bool_decide as H2; try done.
      * exfalso. apply H2. by right.
      * exfalso. apply elem_of_cons in H2 as [|]; done.
Qed.

Lemma naked_single_loop_fixed R (l : list nat) : ∀ (st : Board) c,
  (∀ i, i ∈ l → narrowed R (tile_of st i) = tile_of st i) →
  foldl (naked_single_step R) (st, c) l = (st, c).
Proof.
  induction l as [|i l IH]; intros st c Hfix; [done|].
  rewrite foldl_cons_eq.
  assert (Hstep : naked_single_step R (st, c) i = (st, c)).
  { specialize (Hfix i ltac:(left)). unfold naked_single_step, eliminate.
    unfold narrowed in Hfix.
    destruct (decide (value (tile_of st i) = UNKNOWN)) as [Hu|Hu].
    - rewrite !(bool_decide_eq_true_2 _ Hu) in *.
      assert (Hc : candidates (tile_of st i) ∖ R = candidates (tile_of st i))
        by (by rewrite <- Hfix at 2).
      rewrite Hc, bool_decide_eq_false_2 by (intros H; by apply H).
      rewrite tile_eta. cbn [orb]. f_equal. apply list_insert_id'.
      intros Hi. by apply list_lookup_lookup_total_lt.
    - by rewrite !(bool_decide_eq_false_2 _ Hu). }
  rewrite Hstep. apply IH. intros k Hk. apply Hfix. by right.
Qed.

Lemma naked_single_constrain_tile g (st : Board) (j : nat) :
  tile_of (naked_single_constrain g st).1 j
  = if bool_decide (j ∈ tiles g) then narrowed (used_values g st) (tile_of st j)
    else tile_of st j.
Proof. unfold naked_single_constrain. apply naked_single_loop_tile. Qed.

Lemma elem_of_used_values g (st : Board) v :
  v ∈ used_values g st ↔ v ≠ UNKNOWN ∧ ∃ i, i ∈ tiles g ∧ value (tile_of st i) = v.
Proof.
  unfold used_values. rewrite elem_of_list_to_set, list_elem_of_filter.
  rewrite list_elem_of_fmap. split.
  - intros [Hv (t & -> & (i & Hi & ->)%members_elem)]. eauto.
  - intros [Hv (i & Hi & <-)]. split; [done|].
    exists (tile_of st i). split; [done|]. apply members_elem. eauto.
Qed.

Lemma used_values_after g (st : Board) :
  used_values g (naked_single_constrain g st).1 = used_values g st.
Proof.
  apply set_eq. intros v. rewrite !elem_of_used_values.
  assert (Hval : ∀ i, value (tile_of (naked_single_constrain g st).1 i)
                      = value (tile_of st i)).
  { intros i. rewrite naked_single_constrain_tile.
    case_bool_decide; [apply value_narrowed|done]. }
  split; intros [Hv (i & Hi & He)]; (split; [done|]); exists i;
    (split; [done|]); by rewrite ?Hval in *.
Qed.

(** X6: [naked_single_constrain] strikes the values assigned in the
    group from the candidates of each UNKNOWN tile of the group, and does
    nothing else: the tiles of the group become [narrowed], the other
    tiles of the board and every value stay as they were, and the number
    of tiles is the same. *)
Theorem X6_naked_single_constrain_effect (g : Group) (st : list Tile) :
  length (naked_single_constrain g st).1 = length st
  ∧ (∀ j, tile_of (naked_single_constrain g st).1 j
          = if bool_decide (j ∈ tiles g)
            then narrowed (used_values g st) (tile_of st j)
            else tile_of st j)
  ∧ (∀ j, value (tile_of (naked_single_constrain g st).1 j)
          = value (tile_of st j))
  ∧ (∀ v, v ∈ used_values g st
          ↔ v ≠ UNKNOWN ∧ ∃ i, i ∈ tiles g ∧ value (tile_of st i) = v).
Proof.
  split; [apply naked_single_constrain_length|].
  split; [apply naked_single_constrain_tile|].
  split; [|apply elem_of_used_values].
  intros j. rewrite naked_single_constrain_tile.
  case_bool_decide; [apply value_narrowed|done].
Qed.

(** X7: a second call of [naked_single_constrain] on the same group,
    with nothing done in between, changes nothing and returns false. *)
Theorem X7_naked_single_constrain_twice (g : Group) (st : list Tile) :
  naked_single_constrain g (naked_single_constrain g st).1
  = ((naked_single_constrain g st).1, false).
Proof.
  pose proof (used_values_after g st) as HR.
  pose proof (naked_single_constrain_tile g st) as Ht.
  unfold naked_single_constrain at 1.
  change (list_to_set (filter (λ v, v ≠ UNKNOWN)
            (value <$> members g (naked_single_constrain g st).1)))
    with (used_values g (naked_single_constrain g st).1).
  rewrite HR. apply naked_single_loop_fixed.
  intros i Hi. rewrite Ht, bool_decide_eq_true_2 by done.
  apply narrowed_idemp.
Qed.

(** ** The tactics keep every solution *)

Lemma agrees_length (b : Board) s : agrees b s → length b = length s.
Proof. apply Forall2_length. Qed.

Lemma agrees_tile (b : Board) s (i : nat) :
  agrees b s → i < length b → fits (tile_of b i) (s !!! i).
Proof.
  intros Ha Hi. destruct (lookup_lt_is_Some_2 b i Hi) as [t Ht].
  destruct (Forall2_lookup_l _ _ _ _ _ Ha Ht) as (d & Hd & Hf).
  by rewrite (tile_of_lookup _ _ _ Ht), (list_lookup_total_correct _ _ _ Hd).
Qed.

Lemma agrees_intro (b : Board) s :
  length b = length s → (∀ i, i < length b → fits (tile_of b i) (s !!! i)) →
  agrees b s.
Proof.
  intros Hl Hf. apply Forall2_same_length_lookup. split; [done|].
  intros i t d Ht Hd. specialize (Hf i (lookup_lt_Some _ _ _ Ht)).
  by rewrite (tile_of_lookup _ _ _ Ht), (list_lookup_total_correct _ _ _ Hd) in Hf.
Qed.

Lemma assigned_in_range (b : Board) (i : nat) :
  value (tile_of b i) ≠ UNKNOWN → i < length b.
Proof.
  intros Hv. destruct (decide (i < length b)) as [|Hge]; [done|].
  by rewrite tile_of_ge in Hv by lia.
Qed.

Section one_solution.

Variable s : list string.
Hypothesis s_solution : is_solution s.

Lemma solution_group g :
  g ∈ groups → ((λ i, s !!! i) <$> tiles g) ≡ₚ CHOICES.
Proof.
  intros Hg. destruct s_solution as [_ Hall].
  rewrite Forall_forall in Hall. by apply Hall.
Qed.

Lemma NoDup_CHOICES : NoDup CHOICES.
Proof. by apply (bool_decide_unpack _). Qed.

Lemma solution_inj g (i j : nat) :
  g ∈ groups → i ∈ tiles g → j ∈ tiles g → s !!! i = s !!! j → i = j.
Proof.
  intros Hg Hi Hj He.
  assert (Hnd : NoDup ((λ i, s !!! i) <$> tiles g)).
  { rewrite (solution_group g Hg). apply NoDup_CHOICES. }
  apply list_elem_of_lookup_1 in Hi as [p Hp].
  apply list_elem_of_lookup_1 in Hj as [q Hq].
  assert (p = q).
  { eapply NoDup_lookup; [exact Hnd| |].
    - rewrite list_lookup_fmap, Hp. done.
    - rewrite list_lookup_fmap, Hq. simpl. by rewrite He. }
  subst q. congruence.
Qed.

Lemma solution_NoDup_tiles g : g ∈ groups → NoDup (tiles g).
Proof.
  intros Hg. apply (NoDup_fmap_1 (λ i, s !!! i)).
  rewrite (solution_group g Hg). apply NoDup_CHOICES.
Qed.

Lemma solution_cover g d :
  g ∈ groups → d ∈ digits → ∃ i, i ∈ tiles g ∧ s !!! i = d.
Proof.
  intros Hg Hd%digits_elem. rewrite <- (solution_group g Hg) in Hd.
  apply list_elem_of_fmap in Hd as (i & -> & Hi). eauto.
Qed.

Lemma group_tile_range g (i : nat) : g ∈ groups → i ∈ tiles g → i < 81.
Proof.
  intros Hg Hi. pose proof groups_in_range as Hr.
  rewrite Forall_forall in Hr. specialize (Hr g Hg).
  rewrite Forall_forall in Hr. by apply Hr.
Qed.

Lemma naked_single_constrain_agrees g (st : Board) :
  g ∈ groups → agrees st s → agrees (naked_single_constrain g st).1 s.
Proof.
  intros Hg Ha. apply agrees_intro.
  { rewrite naked_single_constrain_length. by apply agrees_length. }
  intros j Hj. rewrite naked_single_constrain_length in Hj.
  rewrite naked_single_constrain_tile.
  pose proof (agrees_tile st s j Ha Hj) as [Hc Hv].
  case_bool_decide as Hin; [|done].
  unfold narrowed. case_bool_decide as Hu; [|done]. split; [|done].
  cbn [candidates]. apply elem_of_difference. split; [done|].
  intros (Hne & i & Hi & Hval)%elem_of_used_values.
  assert (Hir : i < length st) by (apply assigned_in_range; congruence).
  pose proof (agrees_tile st s i Ha Hir) as [_ Hvi].
  assert (s !!! i = s !!! j) by (rewrite <- Hvi; congruence).
  assert (i = j) by (by eapply solution_inj). subst i. congruence.
Qed.

Lemma hidden_single_step_agrees g (st : Board) c v :
  g ∈ groups → length st = 81 → v ∈ digits → agrees st s →
  agrees (hidden_single_step g (st, c) v).1 s.
Proof.
  intros Hg Hl Hv Ha. unfold hidden_single_step.
  destruct (filter _ (tiles g)) as [|i [|k l]] eqn:Eb; try done. cbn [fst].
  destruct (solution_cover g v Hg Hv) as (j & Hj & Hsj).
  assert (Hjr : j < length st) by (rewrite Hl; by eapply group_tile_range).
  pose proof (agrees_tile st s j Ha Hjr) as [Hcj _].
  assert (Hin : j ∈ filter (λ i, could_be (tile_of st i) v = true) (tiles g)).
  { apply list_elem_of_filter. split; [|done].
    apply could_be_true. by rewrite <- Hsj. }
  rewrite Eb in Hin. apply list_elem_of_singleton in Hin. subst j.
  apply agrees_intro.
  { rewrite length_insert. by apply agrees_length. }
  intros k Hk. rewrite length_insert in Hk.
  destruct (decide (i = k)) as [<-|Hne].
  - rewrite tile_of_insert_eq by done. rewrite Hsj. split; [|done].
    unfold set_value. cbn [candidates]. by apply elem_of_singleton.
  - rewrite tile_of_insert_ne by done. by apply agrees_tile.
Qed.

Lemma hidden_single_loop_agrees g vs : ∀ (st : Board) c,
  g ∈ groups → length st = 81 → Forall (λ v, v ∈ digits) vs → agrees st s →
  agrees (foldl (hidden_single_step g) (st, c) vs).1 s.
Proof.
  induction vs as [|v vs IH]; intros st c Hg Hl Hvs Ha; [done|].
  apply Forall_cons in Hvs as [Hv Hvs]. rewrite foldl_cons_eq.
  pose proof (hidden_single_step_agrees g st c v Hg Hl Hv Ha) as H1.
  pose proof (foldl_length (hidden_single_step g)) as Hlen.
  assert (Hl1 : length (hidden_single_step g (st, c) v).1 = 81).
  { rewrite <- Hl. unfold hidden_single_step.
    destruct (filter _ _) as [|? [|? ?]]; try done. apply length_insert. }
  destruct (hidden_single_step g (st, c) v) as [st1 c1]. by apply IH.
Qed.

End one_solution.

Lemma every_tile_in_a_group :
  Forall (λ i : nat, Exists (λ g, i ∈ tiles g) groups) (seq 0 81).
Proof. apply (bool_decide_unpack _). vm_compute. exact I. Qed.

Lemma tile_in_a_group (i : nat) : i < 81 → ∃ g, g ∈ groups ∧ i ∈ tiles g.
Proof.
  intros Hi. pose proof every_tile_in_a_group as H.
  rewrite Forall_forall in H. specialize (H i).
  rewrite elem_of_seq in H. specialize (H ltac:(lia)).
  by apply Exists_exists in H.
Qed.

Section solution_kept.

Variable s : list string.
Hypothesis s_solution : is_solution s.
Variable enum : pyset → list string.
Hypothesis enum_good : enum_ok enum.

Lemma hidden_single_constrain_agrees g (st : Board) :
  g ∈ groups → length st = 81 → agrees st s →
  agrees (hidden_single_constrain enum g st).1 s.
Proof.
  intros Hg Hl Ha. unfold hidden_single_constrain.
  apply (hidden_single_loop_agrees s s_solution); try done.
  apply Forall_forall. intros v Hv%(proj2 (enum_good _)).
  by apply elem_of_leftovers in Hv as [Hd _].
Qed.

Lemma naked_single_agrees (b : Board) :
  agrees b s → agrees (naked_single b).1 s.
Proof.
  unfold naked_single. generalize false as c.
  assert (Hsub : ∀ g, g ∈ groups → g ∈ groups) by done. revert Hsub.
  generalize groups at 1 3 as gs. intros gs.
  revert b. induction gs as [|g gs IH]; intros b Hsub c Ha; [done|].
  rewrite foldl_cons_eq.
  pose proof (naked_single_constrain_agrees s s_solution g b
                (Hsub g ltac:(left)) Ha) as H1.
  destruct (naked_single_constrain g b) as [b1 c1]. cbn [fst] in H1.
  apply IH; [|done]. intros g' Hg'. apply Hsub. by right.
Qed.

Lemma hidden_single_agrees (b : Board) :
  length b = 81 → agrees b s → agrees (hidden_single enum b).1 s.
Proof.
  unfold hidden_single. generalize false as c.
  assert (Hsub : ∀ g, g ∈ groups → g ∈ groups) by done. revert Hsub.
  generalize groups at 1 3 as gs. intros gs.
  revert b. induction gs as [|g gs IH]; intros b Hsub c Hl Ha; [done|].
  rewrite foldl_cons_eq.
  pose proof (hidden_single_constrain_agrees g b (Hsub g ltac:(left)) Hl Ha)
    as H1.
  pose proof (hidden_single_constrain_length enum g b) as Hl1.
  destruct (hidden_single_constrain enum g b) as [b1 c1]. cbn [fst] in H1, Hl1.
  apply IH; [|congruence|done]. intros g' Hg'. apply Hsub. by right.
Qed.

Lemma propagate_round_agrees (b : Board) :
  length b = 81 → agrees b s → agrees (propagate_round enum b).1 s.
Proof.
  intros Hl Ha. unfold propagate_round.
  pose proof (naked_single_agrees b Ha) as H1.
  pose proof (naked_single_length b) as Hl1.
  destruct (naked_single b) as [b1 c1]. cbn [fst] in H1, Hl1.
  destruct (is_solved b1 || negb (is_consistent b1)); [done|].
  pose proof (hidden_single_agrees b1 ltac:(congruence) H1) as H2.
  destruct (hidden_single enum b1) as [b2 c2]. cbn [fst] in H2.
  by destruct (is_solved b2 || negb (is_consistent b2)).
Qed.

Lemma propagate_loop_agrees (fuel : nat) : ∀ b b' : Board,
  length b = 81 → agrees b s → propagate_loop enum fuel b = Some b' →
  agrees b' s.
Proof.
  induction fuel as [|fuel IH]; intros b b' Hl Ha; [discriminate|].
  cbn [propagate_loop].
  pose proof (propagate_round_agrees b Hl Ha) as H1.
  pose proof (propagate_round_length enum b) as Hl1.
  destruct (propagate_round enum b) as [b1 again]. cbn [fst] in H1, Hl1.
  destruct again.
  - apply IH; [congruence|done].
  - by intros [= <-].
Qed.

Lemma agrees_group_consistent g (b : Board) :
  g ∈ groups → all_ok b → length b = 81 → agrees b s →
  sdk_group.is_consistent g b = true.
Proof.
  intros Hg Hok Hl Ha. apply not_false_iff_true.
  rewrite group_is_consistent_false.
  2:{ intros t (i & _ & ->)%members_elem.
      by apply (tile_ok_spec (tile_of b i)), tile_of_ok. }
  assert (Hfit : ∀ i, i ∈ tiles g → fits (tile_of b i) (s !!! i)).
  { intros i Hi. apply agrees_tile; [done|].
    rewrite Hl. by eapply group_tile_range. }
  intros [(t & (i & Hi & ->)%members_elem & He) | [Hdup | Hcov]].
  - destruct (Hfit i Hi) as [Hc _]. rewrite He in Hc.
    by apply not_elem_of_empty in Hc.
  - destruct Hdup as (p & q & v & Hpq & Hp & Hq & Hv).
    rewrite list_lookup_fmap in Hp, Hq.
    destruct (members g b !! p) as [t1|] eqn:E1; [|done].
    destruct (members g b !! q) as [t2|] eqn:E2; [|done].
    apply members_lookup in E1 as (i & Ei & ->).
    apply members_lookup in E2 as (j & Ej & ->).
    injection Hp as Hp. injection Hq as Hq.
    destruct (Hfit i (list_elem_of_lookup_2 _ _ _ Ei)) as [_ Hvi].
    destruct (Hfit j (list_elem_of_lookup_2 _ _ _ Ej)) as [_ Hvj].
    assert (i = j).
    { apply (solution_inj s s_solution g); try done.
      - by eapply list_elem_of_lookup_2.
      - by eapply list_elem_of_lookup_2.
      - rewrite <- Hvi, <- Hvj by congruence. congruence. }
    subst j.
    pose proof (NoDup_lookup _ _ _ _ (solution_NoDup_tiles s s_solution g Hg)
                  Ei Ej). lia.
  - apply Hcov. intros d Hd.
    destruct (solution_cover s s_solution g d Hg Hd) as (i & Hi & <-).
    apply elem_of_union_list. exists (candidates (tile_of b i)). split.
    + apply list_elem_of_fmap_2, members_elem. eauto.
    + apply (Hfit i Hi).
Qed.

Lemma agrees_consistent (b : Board) :
  all_ok b → length b = 81 → agrees b s → is_consistent b = true.
Proof.
  intros Hok Hl Ha. unfold is_consistent. apply forallb_forall.
  intros g Hg%list_elem_of_In. by apply agrees_group_consistent.
Qed.

Lemma agrees_solved (b : Board) :
  length b = 81 → agrees b s → is_solved b = true → as_list b = s.
Proof.
  intros Hl Ha Hs. apply list_eq_same_length with 81.
  { by rewrite <- (agrees_length b s Ha). }
  { by rewrite length_as_list. }
  intros i v d Hi Hv Hd. unfold as_list in Hv.
  rewrite list_lookup_fmap in Hv.
  destruct (b !! i) as [t|] eqn:Et; [|done]. injection Hv as <-.
  destruct (tile_in_a_group i Hi) as (g & Hg & Hig).
  unfold is_solved in Hs. rewrite forallb_forall in Hs.
  specialize (Hs g (proj1 (list_elem_of_In _ _) Hg)).
  unfold is_complete in Hs. rewrite forallb_forall in Hs.
  specialize (Hs (tile_of b i)).
  assert (Hin : In (tile_of b i) (members g b)).
  { apply list_elem_of_In, members_elem. eauto. }
  apply Hs, negb_true_iff, bool_decide_eq_false in Hin.
  pose proof (agrees_tile b s i Ha ltac:(lia)) as [_ Hval].
  rewrite (tile_of_lookup _ _ _ Et) in Hin, Hval.
  rewrite (Hval Hin). by rewrite (list_lookup_total_correct _ _ _ Hd).
Qed.

End solution_kept.

(** X8: propagation never rules out a solution.  If a solved grid agrees
    with a board of 81 tiles (every tile has the grid's digit among its
    candidates, and as its value when it has one), it still agrees after
    [naked_single], after [hidden_single] and after [propagate]; such a
    board, when well formed, is consistent, and when it is complete it is
    that grid. *)
Theorem X8_solutions_are_kept (enum : pyset → list string) (s : list string)
    (b : Board) :
  enum_ok enum → is_solution s → board_ok b = true → agrees b s →
  agrees (naked_single b).1 s
  ∧ agrees (hidden_single enum b).1 s
  ∧ (∃ b', propagate enum b = Some b' ∧ agrees b' s
           ∧ is_consistent b' = true)
  ∧ is_consistent b = true
  ∧ (is_solved b = true → as_list b = s).
Proof.
  intros Henum Hs Hb Ha. pose proof Hb as [Hl Hok]%board_ok_spec.
  split; [by apply naked_single_agrees|].
  split; [by apply hidden_single_agrees|].
  split; [|split; [by eapply agrees_consistent | by apply agrees_solved]].
  destruct (propagate_board_ok enum Henum b Hb) as (b' & E & Hb' & _).
  exists b'. split; [done|].
  assert (Ha' : agrees b' s) by (by eapply propagate_loop_agrees).
  split; [done|]. apply board_ok_spec in Hb' as [Hl' Hok'].
  by eapply agrees_consistent.
Qed.

(** ** [solve] returns *)

Lemma unknowns_cons t (b : Board) :
  unknowns (t :: b)
  = (if bool_decide (value t = UNKNOWN) then 1 else 0) + unknowns b.
Proof.
  unfold unknowns. rewrite filter_cons.
  case_decide as H; [rewrite (bool_decide_eq_true_2 _ H) |
                     rewrite (bool_decide_eq_false_2 _ H)]; done.
Qed.

Lemma unknowns_as_list (b : Board) :
  unknowns b = length (filter (λ v, v = UNKNOWN) (as_list b)).
Proof.
  induction b as [|t b IH]; [done|]. rewrite unknowns_cons.
  unfold as_list. rewrite fmap_cons, filter_cons. fold (as_list b).
  case_decide as H; [rewrite (bool_decide_eq_true_2 _ H) |
                     rewrite (bool_decide_eq_false_2 _ H)]; simpl; lia.
Qed.

Lemma unknowns_narrows (b b' : Board) :
  Forall2 narrows b b' → unknowns b' ≤ unknowns b.
Proof.
  induction 1 as [|t t' b b' [_ Hv] _ IH]; [done|]. rewrite !unknowns_cons.
  destruct (decide (value t = UNKNOWN)) as [Hu|Hu].
  - rewrite (bool_decide_eq_true_2 _ Hu). case_bool_decide; lia.
  - rewrite (Hv Hu), (bool_decide_eq_false_2 _ Hu). lia.
Qed.

Lemma unknowns_insert (b : Board) (i : nat) t :
  i < length b → value (tile_of b i) = UNKNOWN → value t ≠ UNKNOWN →
  unknowns (<[i := t]> b) + 1 = unknowns b.
Proof.
  revert i. induction b as [|x b IH]; intros i Hi Hu Ht; simpl in Hi; [lia|].
  destruct i as [|i].
  - change (<[0 := t]> (x :: b)) with (t :: b). rewrite !unknowns_cons.
    change (tile_of (x :: b) 0) with x in Hu.
    rewrite (bool_decide_eq_true_2 _ Hu), (bool_decide_eq_false_2 _ Ht). lia.
  - change (<[S i := t]> (x :: b)) with (x :: <[i := t]> b).
    rewrite !unknowns_cons.
    change (tile_of (x :: b) (S i)) with (tile_of b i) in Hu.
    specialize (IH i ltac:(lia) Hu Ht). lia.
Qed.

Lemma value_tile_of_as_list (b : Board) (i : nat) :
  i < length b → value (tile_of b i) = as_list b !!! i.
Proof.
  intros Hi. destruct (lookup_lt_is_Some_2 b i Hi) as [t Ht].
  rewrite (tile_of_lookup _ _ _ Ht). symmetry.
  apply list_lookup_total_correct. unfold as_list.
  by rewrite list_lookup_fmap, Ht.
Qed.

Lemma board_ok_guess (b : Board) (i : nat) c :
  board_ok b = true → c ∈ digits →
  board_ok (<[i := set_value (tile_of b i) c]> b) = true.
Proof.
  intros [Hl Hok]%board_ok_spec Hc. apply board_ok_spec.
  split; [by rewrite length_insert|]. apply Forall_insert; [done|].
  apply tile_ok_spec; simpl. split; [by apply singleton_subseteq_l|done].
Qed.

Section solve_returns.

Variable enum : pyset → list string.
Variable recompute : list string → nat → pyset.
Hypothesis enum_good : enum_ok enum.
Hypothesis recompute_good : recompute_ok recompute.

Lemma board_ok_restored (b2 b1 : Board) :
  length b2 = 81 → board_ok b1 = true →
  board_ok (set_tiles recompute b2 (as_list b1)) = true.
Proof.
  intros Hl2 [Hl1 Hok1]%board_ok_spec. apply board_ok_spec. split.
  - by rewrite length_set_tiles.
  - apply set_tiles_ok; [done| |by apply as_list_symbols].
    rewrite length_as_list. congruence.
Qed.

Lemma guess_loop_terminates solve' (b1 : Board) (best fuel : nat) :
  (∀ b : Board, board_ok b = true → unknowns b < fuel →
     solve' b ≠ OutOfFuel) →
  (∀ (b : Board) r b', solve' b = Return r b' → length b' = length b) →
  board_ok b1 = true → best < 81 → value (tile_of b1 best) = UNKNOWN →
  unknowns b1 ≤ fuel →
  ∀ cands (b : Board), Forall (λ c, c ∈ digits) cands →
    board_ok b = true → as_list b = as_list b1 →
    guess_loop recompute solve' (as_list b1) best cands b ≠ OutOfFuel.
Proof.
  intros Hrec Hlen Hb1 Hbest Hu Hfuel cands.
  induction cands as [|c cands IH]; intros b Hc Hb Hsave.
  - by rewrite guess_loop_nil.
  - rewrite guess_loop_cons. apply Forall_cons in Hc as [Hc Hcs].
    pose proof Hb as [Hl _]%board_ok_spec.
    pose proof Hb1 as [Hl1 _]%board_ok_spec.
    pose proof (board_ok_guess b best c Hb Hc) as Hb'.
    assert (Hub : value (tile_of b best) = UNKNOWN).
    { rewrite value_tile_of_as_list, Hsave by lia.
      rewrite <- value_tile_of_as_list by lia. done. }
    assert (Hcount : unknowns (<[best := set_value (tile_of b best) c]> b) < fuel).
    { pose proof (unknowns_insert b best (set_value (tile_of b best) c)
                    ltac:(lia) Hub (digit_not_UNKNOWN c Hc)) as Hi.
      rewrite (unknowns_as_list b), Hsave, <- unknowns_as_list in Hi. lia. }
    specialize (Hrec _ Hb' Hcount).
    destruct (solve' _) as [[] b2 | e |] eqn:E; try done.
    apply Hlen in E. rewrite length_insert in E.
    apply IH; [done| |].
    + apply board_ok_restored; [congruence|done].
    + apply as_list_set_tiles. rewrite length_as_list. congruence.
Qed.

Lemma solve_terminates (fuel : nat) : ∀ b : Board,
  board_ok b = true → unknowns b < fuel →
  solve enum recompute fuel b ≠ OutOfFuel.
Proof.
  induction fuel as [|fuel IH]; intros b Hb Hlt; [lia|].
  rewrite solve_unfold.
  destruct (propagate_board_ok enum enum_good b Hb) as (b1 & -> & Hb1 & Hn).
  pose proof (unknowns_narrows b b1 Hn) as Hle.
  destruct (is_solved b1) eqn:Es; [done|].
  destruct (is_consistent b1); cbn [negb]; [|done].
  pose proof Hb1 as [Hl1 Hok1]%board_ok_spec.
  destruct (unsolved_has_unknown b1 Es) as (u & Hu & Huv).
  destruct (scan_selects b1 u Hok1 Hu Huv) as (i & -> & Hi & Hiv & _).
  cbn [fst]. apply guess_loop_terminates with (fuel := fuel); try done.
  - apply solve_length.
  - lia.
  - apply Forall_forall. intros c Hc%(proj2 (enum_good _)).
    pose proof (tile_of_ok b1 i Hok1) as [Hsub _]%tile_ok_spec. by apply Hsub.
Qed.

(** *** A board with a solution is never given up *)

Variable s : list string.
Hypothesis s_solution : is_solution s.
Hypothesis recompute_room : recompute_fits recompute s.

Lemma agrees_guess (b : Board) (i : nat) :
  agrees b s → agrees (<[i := set_value (tile_of b i) (s !!! i)]> b) s.
Proof.
  intros Ha. apply agrees_intro.
  { rewrite length_insert. by apply agrees_length. }
  intros k Hk. rewrite length_insert in Hk.
  destruct (decide (i = k)) as [<-|Hne].
  - rewrite tile_of_insert_eq by done. split; [|done].
    unfold set_value. cbn [candidates]. by apply elem_of_singleton.
  - rewrite tile_of_insert_ne by done. by apply agrees_tile.
Qed.

Lemma agrees_restored (b2 b1 : Board) :
  length b2 = length b1 → agrees b1 s →
  agrees (set_tiles recompute b2 (as_list b1)) s.
Proof.
  intros Hl Ha. apply agrees_intro.
  { rewrite length_set_tiles, Hl. by apply agrees_length. }
  intros i Hi. rewrite length_set_tiles in Hi.
  destruct (lookup_lt_is_Some_2 b2 i Hi) as [t Ht].
  assert (Ei : set_tiles recompute b2 (as_list b1) !! i
               = Some (restore_tile recompute (as_list b1) i
                         (as_list b1 !!! i))).
  { unfold set_tiles. by rewrite list_lookup_imap, Ht. }
  rewrite (tile_of_lookup _ _ _ Ei).
  rewrite <- value_tile_of_as_list by lia.
  pose proof (agrees_tile b1 s i Ha ltac:(lia)) as [Hc Hv].
  unfold restore_tile. case_bool_decide as Hu.
  - split; [|done]. apply recompute_room.
    rewrite <- (agrees_length b1 s Ha). lia.
  - rewrite (Hv Hu). split; [|done].
    unfold set_value. cbn [candidates]. by apply elem_of_singleton.
Qed.

Lemma guess_loop_not_false solve' (b1 : Board) (best : nat) :
  (∀ b : Board, board_ok b = true → agrees b s →
     ∀ b', solve' b ≠ Return false b') →
  (∀ (b : Board) r b', solve' b = Return r b' → length b' = length b) →
  board_ok b1 = true → agrees b1 s →
  ∀ cands (b : Board), Forall (λ c, c ∈ digits) cands →
    s !!! best ∈ cands → board_ok b = true → agrees b s →
    ∀ b', guess_loop recompute solve' (as_list b1) best cands b
          ≠ Return false b'.
Proof.
  intros Hrec Hlen Hb1 Ha1 cands.
  induction cands as [|c cands IH]; intros b Hc Hin Hb Ha b'.
  - by apply elem_of_nil in Hin.
  - rewrite guess_loop_cons. apply Forall_cons in Hc as [Hc Hcs].
    pose proof Hb as [Hl _]%board_ok_spec.
    pose proof Hb1 as [Hl1 _]%board_ok_spec.
    pose proof (board_ok_guess b best c Hb Hc) as Hbg.
    destruct (solve' _) as [[] b2 | e |] eqn:E; try done.
    apply elem_of_cons in Hin as [Hin|Hin].
    + exfalso. subst c. by apply (Hrec _ Hbg (agrees_guess b best Ha) b2).
    + apply Hlen in E. rewrite length_insert in E.
      apply IH; [done|done| |].
      * apply board_ok_restored; [congruence|done].
      * apply agrees_restored; [congruence|done].
Qed.

Lemma solve_not_false (fuel : nat) : ∀ b : Board,
  board_ok b = true → agrees b s →
  ∀ b', solve enum recompute fuel b ≠ Return false b'.
Proof.
  induction fuel as [|fuel IH]; intros b Hb Ha b'; [done|].
  rewrite solve_unfold.
  destruct (propagate_board_ok enum enum_good b Hb) as (b1 & E & Hb1 & Hn).
  rewrite E.
  pose proof Hb as [Hl Hok]%board_ok_spec.
  pose proof Hb1 as [Hl1 Hok1]%board_ok_spec.
  assert (Ha1 : agrees b1 s).
  { exact (propagate_loop_agrees s s_solution enum enum_good
             (S (board_weight b)) b b1 Hl Ha E). }
  destruct (is_solved b1) eqn:Es; [done|].
  rewrite (agrees_consistent s s_solution b1 Hok1 Hl1 Ha1). cbn [negb].
  destruct (unsolved_has_unknown b1 Es) as (u & Hu & Huv).
  destruct (scan_selects b1 u Hok1 Hu Huv) as (i & -> & Hi & Hiv & _).
  cbn [fst]. apply guess_loop_not_false; try done.
  - apply solve_length.
  - apply Forall_forall. intros c Hc%(proj2 (enum_good _)).
    pose proof (tile_of_ok b1 i Hok1) as [Hsub _]%tile_ok_spec. by apply Hsub.
  - apply (proj2 (enum_good _)). apply (agrees_tile b1 s i Ha1). lia.
Qed.

End solve_returns.

#[global] Instance fits_dec t d : Decision (fits t d).
Proof. unfold fits. apply _. Defined.

#[global] Instance agrees_dec b s : Decision (agrees b s).
Proof. unfold agrees. apply _. Defined.

#[global] Instance is_solution_dec s : Decision (is_solution s).
Proof. unfold is_solution. apply _. Defined.

Lemma solution_digit s (i : nat) : is_solution s → i < 81 → s !!! i ∈ digits.
Proof.
  intros Hs Hi. destruct (tile_in_a_group i Hi) as (g & Hg & Hig).
  apply digits_elem. rewrite <- (solution_group s Hs g Hg).
  apply list_elem_of_fmap. eauto.
Qed.

Lemma recompute_all_fits s : is_solution s → recompute_fits recompute_all s.
Proof.
  intros Hs snapshot i Hi. unfold recompute_all. fold digits.
  apply solution_digit; [done|]. destruct Hs as [Hl _]. lia.
Qed.

Lemma solve_returns enum recompute (fuel : nat) (b : Board) :
  enum_ok enum → recompute_ok recompute → board_ok b = true →
  unknowns b < fuel →
  ∃ r b', solve enum recompute fuel b = Return r b' ∧ board_ok b' = true.
Proof.
  intros Henum Hrc Hb Hlt.
  pose proof (solve_safe enum recompute Henum Hrc fuel b Hb) as Hsafe.
  pose proof (solve_terminates enum recompute Henum Hrc fuel b Hb Hlt) as Hterm.
  destruct (solve enum recompute fuel b) as [r b' | e |]; try done. eauto.
Qed.

(** X9: [solve] returns, and the depth of its recursion is bounded by the
    number of UNKNOWN tiles: on a well-formed board a run allowed more
    nested calls than there are UNKNOWN tiles ends with a returned flag
    and a well-formed board, not with an exception. *)
Theorem X9_solve_returns (enum : pyset → list string)
    (recompute : list string → nat → pyset) (fuel : nat) (b : Board) :
  enum_ok enum → recompute_ok recompute → board_ok b = true →
  unknowns b < fuel →
  ∃ r b', solve enum recompute fuel b = Return r b' ∧ board_ok b' = true.
Proof. apply solve_returns. Qed.

Lemma X9_witness :
  enum_ok elements ∧ recompute_ok recompute_all
  ∧ board_ok stalled_puzzle = true ∧ unknowns stalled_puzzle < 81
  ∧ ∃ r b', solve elements recompute_all 81 stalled_puzzle = Return r b'
            ∧ board_ok b' = true.
Proof.
  assert (H1 : board_ok stalled_puzzle = true) by (vm_compute; reflexivity).
  assert (H2 : unknowns stalled_puzzle < 81) by (vm_compute; lia).
  split; [exact enum_ok_elements|]. split; [exact recompute_ok_all|].
  split; [exact H1|]. split; [exact H2|].
  exact (X9_solve_returns elements recompute_all 81 stalled_puzzle
           enum_ok_elements recompute_ok_all H1 H2).
Defined.

(** X10: a puzzle that has a solution is never given up.  If a solved
    grid agrees with a well-formed board, and the candidates [set_tiles]
    recomputes leave room for it, [solve] returns true (given the depth
    of X9), with no tile left UNKNOWN. *)
Theorem X10_solve_finds_solvable (enum : pyset → list string)
    (recompute : list string → nat → pyset) (fuel : nat) (b : Board)
    (s : list string) :
  enum_ok enum → recompute_ok recompute → recompute_fits recompute s →
  is_solution s → board_ok b = true → agrees b s → unknowns b < fuel →
  ∃ b', solve enum recompute fuel b = Return true b' ∧ is_solved b' = true.
Proof.
  intros Henum Hrc Hroom Hs Hb Ha Hlt.
  destruct (solve_returns enum recompute fuel b Henum Hrc Hb Hlt)
    as (r & b' & E & _).
  destruct r.
  - exists b'. split; [done|]. by eapply solve_true_solved.
  - exfalso.
    by apply (solve_not_false enum recompute Henum Hrc s Hs Hroom fuel b Hb Ha b').
Qed.

Lemma X10_witness :
  enum_ok elements ∧ recompute_ok recompute_all
  ∧ recompute_fits recompute_all stalled_solution
  ∧ is_solution stalled_solution ∧ board_ok stalled_puzzle = true
  ∧ agrees stalled_puzzle stalled_solution ∧ unknowns stalled_puzzle < 81
  ∧ ∃ b', solve elements recompute_all 81 stalled_puzzle = Return true b'
          ∧ is_solved b' = true.
Proof.
  assert (H1 : is_solution stalled_solution).
  { apply (bool_decide_unpack _). vm_compute. exact I. }
  assert (H2 : board_ok stalled_puzzle = true) by (vm_compute; reflexivity).
  assert (H3 : agrees stalled_puzzle stalled_solution).
  { apply (bool_decide_unpack _). vm_compute. exact I. }
  assert (H4 : unknowns stalled_puzzle < 81) by (vm_compute; lia).
  split; [exact enum_ok_elements|]. split; [exact recompute_ok_all|].
  split; [exact (recompute_all_fits stalled_solution H1)|].
  split; [exact H1|]. split; [exact H2|]. split; [exact H3|].
  split; [exact H4|].
  exact (X10_solve_finds_solvable elements recompute_all 81 stalled_puzzle
           stalled_solution enum_ok_elements recompute_ok_all
           (recompute_all_fits stalled_solution H1) H1 H2 H3 H4).
Defined.

Lemma X8_witness :
  enum_ok elements ∧ is_solution easy_solution
  ∧ board_ok easy_puzzle = true ∧ agrees easy_puzzle easy_solution
  ∧ agrees (naked_single easy_puzzle).1 easy_solution
  ∧ agrees (hidden_single elements easy_puzzle).1 easy_solution
  ∧ (∃ b', propagate elements easy_puzzle = Some b'
           ∧ agrees b' easy_solution ∧ is_consistent b' = true)
  ∧ is_consistent easy_puzzle = true
  ∧ (is_solved easy_puzzle = true → as_list easy_puzzle = easy_solution).
Proof.
  assert (H1 : is_solution easy_solution).
  { apply (bool_decide_unpack _). vm_compute. exact I. }
  assert (H2 : board_ok easy_puzzle = true) by (vm_compute; reflexivity).
  assert (H3 : agrees easy_puzzle easy_solution).
  { apply (bool_decide_unpack _). vm_compute. exact I. }
  split; [exact enum_ok_elements|]. split; [exact H1|]. split; [exact H2|].
  split; [exact H3|].
  exact (X8_solutions_are_kept elements easy_solution easy_puzzle
           enum_ok_elements H1 H2 H3).
Defined.

(** ** A failed search leaves no guess behind *)

Lemma guess_loop_false recompute solve' save (best : nat) :
  (∀ (b : Board) r b', solve' b = Return r b' → length b' = length b) →
  ∀ cands (b : Board) b', as_list b = save →
    guess_loop recompute solve' save best cands b = Return false b' →
    as_list b' = save ∧ length b' = length b.
Proof.
  intros Hlen cands. induction cands as [|c cands IH]; intros b b' Hsave.
  - rewrite guess_loop_nil. by intros [= <-].
  - rewrite guess_loop_cons.
    destruct (solve' _) as [[] b2 | e |] eqn:E; try discriminate.
    apply Hlen in E. rewrite length_insert in E.
    intros E2. apply IH in E2.
    + rewrite length_set_tiles in E2. split; [apply E2|]. lia.
    + apply as_list_set_tiles. rewrite <- Hsave, length_as_list. done.
Qed.

(** X11: when [solve] returns false, the values on the board are those
    [propagate] left at the start of that call: every value guessed, and
    every value propagated from a guess, has been taken back. *)
Theorem X11_failed_solve_restores (enum : pyset → list string)
    (recompute : list string → nat → pyset) (fuel : nat) (b b' : Board) :
  solve enum recompute fuel b = Return false b' →
  ∃ b1, propagate enum b = Some b1 ∧ as_list b' = as_list b1
        ∧ length b' = length b.
Proof.
  destruct fuel as [|fuel]; [discriminate|]. rewrite solve_unfold.
  destruct (propagate enum b) as [b1|] eqn:E; [|discriminate].
  pose proof (propagate_loop_length _ _ _ _ E) as Hl1.
  intros H. exists b1. split; [done|]. revert H.
  destruct (is_solved b1); [discriminate|].
  destruct (is_consistent b1); cbn [negb]; [|by intros [= <-]].
  destruct (scan b1).1 as [i|]; [|discriminate].
  intros H. apply guess_loop_false in H as [H1 H2]; [|apply solve_length|done].
  split; [done|congruence].
Qed.

Lemma X11_witness :
  solve elements recompute_all 2 dead_end_board
  = Return false (board_of dead_end_values)
  ∧ propagate elements dead_end_board = Some dead_end_stalled
  ∧ as_list dead_end_stalled = dead_end_values
  ∧ is_solved dead_end_stalled = false
  ∧ is_consistent dead_end_stalled = true
  ∧ (scan dead_end_stalled).1 = Some 10
  ∧ elements (candidates (tile_of dead_end_stalled 10)) = ["5"; "4"]
  ∧ (∃ b2, solve elements recompute_all 1
             (<[10 := set_value (tile_of dead_end_stalled 10) "5"]>
                dead_end_stalled) = Return false b2
           ∧ as_list b2 !! 10 = Some "5"
           ∧ as_list b2 ≠ <[10 := "5"]> dead_end_values)
  ∧ dead_end_values !! 10 = Some UNKNOWN
  ∧ ∃ b1, propagate elements dead_end_board = Some b1
          ∧ as_list (board_of dead_end_values) = as_list b1
          ∧ length (board_of dead_end_values) = length dead_end_board.
Proof.
  assert (H : solve elements recompute_all 2 dead_end_board
              = Return false (board_of dead_end_values))
    by by_evaluation.
  split; [exact H|]. split; [by_evaluation|].
  split; [by_evaluation|]. split; [by_evaluation|].
  split; [by_evaluation|]. split; [by_evaluation|].
  split; [by_evaluation|]. split.
  { assert (K : match solve elements recompute_all 1
                        (<[10 := set_value (tile_of dead_end_stalled 10) "5"]>
                           dead_end_stalled) with
                | Return false b2 =>
                    bool_decide (as_list b2 !! 10 = Some "5")
                    && negb (bool_decide
                               (as_list b2 = <[10 := "5"]> dead_end_values))
                | _ => false
                end = true) by by_evaluation.
    destruct (solve elements recompute_all 1
                (<[10 := set_value (tile_of dead_end_stalled 10) "5"]>
                   dead_end_stalled))
      as [[] b2 | |]; try discriminate K.
    exists b2. split; [reflexivity|].
    apply andb_true_iff in K as [K1 K2].
    split; [by apply bool_decide_eq_true in K1|].
    by apply negb_true_iff, bool_decide_eq_false in K2. }
  split; [reflexivity|].
  exact (X11_failed_solve_restores elements recompute_all 2 _ _ H).
Defined.

(** ** What [hidden_single_constrain] may change *)

(** X12: [hidden_single_constrain] only assigns.  On well-formed tiles,
    each tile is after the call as it was before, or it is a tile of the
    group that was UNKNOWN and now holds, as value and only candidate, a
    digit that was among its candidates and that no tile of the group
    held. *)
Theorem X12_hidden_single_only_assigns (enum : pyset → list string)
    (g : Group) (st : list Tile) (j : nat) :
  enum_ok enum → Forall (λ t, tile_ok t = true) st →
  tile_of (hidden_single_constrain enum g st).1 j = tile_of st j
  ∨ (j ∈ tiles g ∧ value (tile_of st j) = UNKNOWN
     ∧ ∃ v, v ∈ candidates (tile_of st j) ∧ v ∈ CHOICES
            ∧ (∀ i, i ∈ tiles g → value (tile_of st i) ≠ v)
            ∧ tile_of (hidden_single_constrain enum g st).1 j
              = mkTile v {[ v ]}).
Proof.
  intros Henum Hok. unfold hidden_single_constrain.
  destruct (Henum (leftovers_of g st)) as [Hnd Hin].
  destruct (hidden_single_loop_shape g (enum (leftovers_of g st)) st false
              Hok Hnd) with (j := j) as [H | (Hj & Hu & v & Hv & Hc & H)].
  - intros v Hv%Hin k Hk. by eapply leftovers_unassigned.
  - by left.
  - right. split; [done|]. split; [done|]. exists v. split; [done|].
    apply Hin in Hv. split.
    + apply elem_of_leftovers in Hv as [Hd _]. by apply digits_elem.
    + split; [|done]. intros i Hi. by eapply leftovers_unassigned.
Qed.

Lemma X12_witness :
  enum_ok elements ∧ Forall (λ t, tile_ok t = true) row_with_gap
  ∧ (tile_of (hidden_single_constrain elements (row_group 0) row_with_gap).1 5
     = tile_of row_with_gap 5
     ∨ (5 ∈ tiles (row_group 0) ∧ value (tile_of row_with_gap 5) = UNKNOWN
        ∧ ∃ v, v ∈ candidates (tile_of row_with_gap 5) ∧ v ∈ CHOICES
             ∧ (∀ i, i ∈ tiles (row_group 0) →
                  value (tile_of row_with_gap i) ≠ v)
             ∧ tile_of (hidden_single_constrain elements (row_group 0)
                          row_with_gap).1 5
               = mkTile v {[ v ]})).
Proof.
  assert (H : Forall (λ t, tile_ok t = true) row_with_gap).
  { apply Forall_forall. intros x Hx%list_elem_of_In. revert x Hx.
    apply forallb_forall. vm_compute; reflexivity. }
  split; [exact enum_ok_elements|]. split; [exact H|].
  exact (X12_hidden_single_only_assigns elements (row_group 0) row_with_gap 5
           enum_ok_elements H).
Defined.
